(** * brove: the allowlist store and the relay's access policies

    A shallow embedding of [database.go] (the [DBManager] over the
    [allowed_pubkeys] table) and of the policy closures that [main]
    registers on the khatru relay (write policy, read policy, management
    pre-check and the four management operations).

    Go code that talks to PostgreSQL or reads the process environment is
    written in a state monad over a [World]: the table contents, the
    process environment, the database clock, the outcome of every round
    trip to the server, the statements sent so far and the lines written
    with [log.Printf]. *)

From Stdlib Require Import String Ascii List ZArith Lia Bool Arith.
From Stdlib Require Import Sorting.Sorted Sorting.Permutation.
Import ListNotations.

Local Open Scope string_scope.
Local Open Scope list_scope.

(** ** Go values *)

Module Go.

(** A Go [error] value.  [driver_error] is an error produced by
    [database/sql] or [lib/pq]; [Errorf] is the result of [fmt.Errorf]
    for a format without [%w], [Errorf_w] for a format with [%w]: the
    complete message and the error it wraps. *)
Inductive error : Type :=
| driver_error (text : string)
| Errorf (text : string)
| Errorf_w (text : string) (wrapped : error).

(** [err.Error()] *)
Definition Error (e : error) : string :=
  match e with
  | driver_error text => text
  | Errorf text => text
  | Errorf_w text _ => text
  end.

(** [errors.Unwrap(err)] *)
Definition Unwrap (e : error) : option error :=
  match e with
  | Errorf_w _ wrapped => Some wrapped
  | _ => None
  end.

End Go.
Import Go.

(** ** The persisted state

    [[
    CREATE TABLE IF NOT EXISTS allowed_pubkeys (
        pubkey VARCHAR(64) PRIMARY KEY,
        reason TEXT,
        created_at TIMESTAMP DEFAULT CURRENT_TIMESTAMP
    );
    ]] *)

Record Row : Type := mkRow {
  pubkey : string;
  reason : option string;      (* TEXT, nullable *)
  created_at : Z               (* TIMESTAMP, microseconds *)
}.

(** The statements [DBManager] sends, with their bound parameters. *)
Inductive Stmt : Type :=
| InsertAllowed (pk rsn : string)
    (* INSERT INTO allowed_pubkeys (pubkey, reason) VALUES ($1, $2)
       ON CONFLICT (pubkey) DO NOTHING *)
| DeleteAllowed (pk : string)
    (* DELETE FROM allowed_pubkeys WHERE pubkey = $1 *)
| SelectExists (pk : string)
    (* SELECT EXISTS(SELECT 1 FROM allowed_pubkeys WHERE pubkey = $1) *)
| SelectPubkeys.
    (* SELECT pubkey FROM allowed_pubkeys ORDER BY created_at *)

Record World : Type := mkWorld {
  environ : list (string * string);  (* the process environment *)
  allowed_pubkeys : list Row;        (* the table, in heap order *)
  clock : nat -> Z;                  (* CURRENT_TIMESTAMP seen by the n-th statement *)
  faults : nat -> option string;     (* the n-th round trip fails with this driver message *)
  trace : list Stmt;                 (* statements sent so far, oldest first *)
  log : list string                  (* lines written by log.Printf *)
}.

(** ** A state monad over the world *)

Definition M (A : Type) : Type := World -> A * World.

Definition ret {A : Type} (a : A) : M A := fun w => (a, w).

Definition bind {A B : Type} (m : M A) (k : A -> M B) : M B :=
  fun w => let (a, w') := m w in k a w'.

Declare Scope go_scope.
Delimit Scope go_scope with go.
Notation "x <- m ;; k" := (bind m (fun x => k))
  (at level 100, m at next level, right associativity) : go_scope.
Notation "m ;;; k" := (bind m (fun _ => k))
  (at level 100, right associativity) : go_scope.
Local Open Scope go_scope.

(** ** PostgreSQL: the semantics of the four statements *)

Module Pg.

Definition has_key (pk : string) (t : list Row) : bool :=
  existsb (fun r => String.eqb (pubkey r) pk) t.

Definition count_key (pk : string) (t : list Row) : nat :=
  List.length (filter (fun r => String.eqb (pubkey r) pk) t).

(** The PRIMARY KEY constraint on [pubkey]. *)
Definition pk_unique (t : list Row) : Prop := NoDup (map pubkey t).

Fixpoint all_spaces (s : string) : bool :=
  match s with
  | EmptyString => true
  | String c rest => Ascii.eqb c " "%char && all_spaces rest
  end.

(** Strings travel to the server as UTF-8 (lib/pq fixes the client
    encoding), and [VARCHAR(n)] counts characters: a byte 10xxxxxx
    continues the character before it. *)
Definition is_continuation (c : ascii) : bool :=
  match c with
  | Ascii _ _ _ _ _ _ b6 b7 => b7 && negb b6
  end.

Fixpoint char_length (s : string) : nat :=
  match s with
  | EmptyString => 0
  | String c rest =>
      (if is_continuation c then 0 else 1) + char_length rest
  end.

(** The first [n] characters of a string, and what follows them. *)
Fixpoint take_chars (n : nat) (s : string) : string :=
  match s with
  | EmptyString => EmptyString
  | String c rest =>
      if is_continuation c then String c (take_chars n rest)
      else match n with
           | 0 => EmptyString
           | S m => String c (take_chars m rest)
           end
  end.

Fixpoint drop_chars (n : nat) (s : string) : string :=
  match s with
  | EmptyString => EmptyString
  | String c rest =>
      if is_continuation c then drop_chars n rest
      else match n with
           | 0 => s
           | S m => drop_chars m rest
           end
  end.

(** Assignment to a [VARCHAR(n)] column: a value of more than [n]
    characters is an error, unless the excess consists of spaces only,
    which are cut off. *)
Definition varchar (n : nat) (s : string) : option string :=
  if Nat.leb (char_length s) n then Some s
  else if all_spaces (drop_chars n s)
       then Some (take_chars n s)
       else None.

(** Every semantics maps the server time and the table to a reply (or
    the server's error message) and the new table; the reply of a data
    modification is the number of rows affected. *)
Definition insert_allowed (pk rsn : string) (now : Z) (t : list Row)
  : (Z + string) * list Row :=
  match varchar 64 pk with
  | None => (inr "pq: value too long for type character varying(64)", t)
  | Some pk' =>
      if has_key pk' t then (inl 0%Z, t)           (* ON CONFLICT DO NOTHING *)
      else (inl 1%Z, t ++ [mkRow pk' (Some rsn) now])
  end.

Definition delete_allowed (pk : string) (now : Z) (t : list Row)
  : (Z + string) * list Row :=
  (inl (Z.of_nat (count_key pk t)),
   filter (fun r => negb (String.eqb (pubkey r) pk)) t).

Definition select_exists (pk : string) (now : Z) (t : list Row)
  : (bool + string) * list Row :=
  (inl (has_key pk t), t).

(** ORDER BY created_at: rows with equal timestamps may come in any
    order in PostgreSQL; here they keep their heap order. *)
Fixpoint insert_by_created_at (r : Row) (sorted : list Row) : list Row :=
  match sorted with
  | [] => [r]
  | r' :: rest =>
      if (created_at r <? created_at r')%Z then r :: r' :: rest
      else r' :: insert_by_created_at r rest
  end.

Definition order_by_created_at (t : list Row) : list Row :=
  fold_left (fun sorted r => insert_by_created_at r sorted) t [].

Definition created_le (a b : Row) : Prop := (created_at a <= created_at b)%Z.

Definition select_pubkeys (now : Z) (t : list Row)
  : (list string + string) * list Row :=
  (inl (map pubkey (order_by_created_at t)), t).

End Pg.

(** ** database/sql

    One round trip: the statement is recorded; when the world has a
    fault for it, the driver's error comes back and the table is as it
    was; otherwise the statement runs at the server's current time.
    A fault is a round trip that fails before the server executes the
    statement; a statement that ran and whose reply was lost is not
    among the faults of a world. *)
Definition sent (s : Stmt) (t' : list Row) (w : World) : World :=
  mkWorld (environ w) t' (clock w) (faults w) (trace w ++ [s]) (log w).

Definition round_trip {A : Type} (s : Stmt)
    (sem : Z -> list Row -> (A + string) * list Row) : M (A + error) :=
  fun w =>
    let n := List.length (trace w) in
    match faults w n with
    | Some text => (inr (driver_error text), sent s (allowed_pubkeys w) w)
    | None =>
        let (reply, t') := sem (clock w n) (allowed_pubkeys w) in
        (match reply with
         | inl a => inl a
         | inr text => inr (driver_error text)
         end,
         sent s t' w)
    end.

(** [sql.Result]; with lib/pq [RowsAffected] never fails. *)
Record Result : Type := mkResult { rows_affected : Z }.

Definition RowsAffected (r : Result) : Z * option error :=
  (rows_affected r, None).

(** [db.Exec(query, args...)] for the two data modifications. *)
Definition db_Exec (s : Stmt)
    (sem : Z -> list Row -> (Z + string) * list Row)
  : M (Result * option error) :=
  r <- round_trip s sem ;;
  match r with
  | inl n => ret (mkResult n, None)
  | inr err => ret (mkResult 0, Some err)
  end.

(** [db.QueryRow(query, args...).Scan(&exists)]; on an error the
    destination keeps its zero value. *)
Definition db_QueryRow_Scan (s : Stmt)
    (sem : Z -> list Row -> (bool + string) * list Row)
  : M (bool * option error) :=
  r <- round_trip s sem ;;
  match r with
  | inl b => ret (b, None)
  | inr err => ret (false, Some err)
  end.

(** [db.Query(query)]: the rows fetched, each a value of the one
    selected column. *)
Definition db_Query (s : Stmt)
    (sem : Z -> list Row -> (list string + string) * list Row)
  : M (list string * option error) :=
  r <- round_trip s sem ;;
  match r with
  | inl rows => ret (rows, None)
  | inr err => ret ([], Some err)
  end.

(** [log.Printf]: the formatted line, without the logger's prefix. *)
Definition log_Printf (line : string) : M unit :=
  fun w =>
    (tt, mkWorld (environ w) (allowed_pubkeys w) (clock w) (faults w)
                 (trace w) (log w ++ [line])).

(** ** database.go: DBManager *)

(** [[
    func (dbm *DBManager) AddAllowedPubkey(pubkey, reason string) error
    ]] *)
Definition AddAllowedPubkey (pubkey reason : string) : M (option error) :=
  if String.eqb pubkey "" then
    ret (Some (Errorf "pubkey cannot be empty"))
  else
    r <- db_Exec (InsertAllowed pubkey reason) (Pg.insert_allowed pubkey reason) ;;
    match snd r with
    | Some err =>
        ret (Some (Errorf_w ("failed to add allowed pubkey " ++ pubkey ++ ": "
                           ++ Error err) err))
    | None => ret None
    end.

(** [[
    func (dbm *DBManager) RemoveAllowedPubkey(pubkey string) error
    ]] *)
Definition RemoveAllowedPubkey (pubkey : string) : M (option error) :=
  if String.eqb pubkey "" then
    ret (Some (Errorf "pubkey cannot be empty"))
  else
    r <- db_Exec (DeleteAllowed pubkey) (Pg.delete_allowed pubkey) ;;
    match snd r with
    | Some err =>
        ret (Some (Errorf_w ("failed to remove allowed pubkey " ++ pubkey ++ ": "
                           ++ Error err) err))
    | None =>
        match RowsAffected (fst r) with
        | (_, Some err) =>
            ret (Some (Errorf_w ("failed to get rows affected for pubkey "
                                 ++ pubkey ++ ": " ++ Error err) err))
        | (rowsAffected, None) =>
            if (rowsAffected =? 0)%Z then
              ret (Some (Errorf ("pubkey " ++ pubkey
                                 ++ " not found in allowed list")))
            else ret None
        end
    end.

(** [[
    func (dbm *DBManager) IsAllowedPubkey(pubkey string) (bool, error)
    ]] *)
Definition IsAllowedPubkey (pubkey : string) : M (bool * option error) :=
  if String.eqb pubkey "" then ret (false, None)
  else
    r <- db_QueryRow_Scan (SelectExists pubkey) (Pg.select_exists pubkey) ;;
    match snd r with
    | Some err =>
        ret (false,
             Some (Errorf_w ("failed to check if pubkey " ++ pubkey
                             ++ " is allowed: " ++ Error err) err))
    | None => ret (fst r, None)
    end.

(** The loop [for rows.Next() { rows.Scan(&pubkey); pubkeys = append(pubkeys, pubkey) }]. *)
Fixpoint scan_rows (rows : list string) (pubkeys : list string) : list string :=
  match rows with
  | [] => pubkeys
  | pubkey :: rest => scan_rows rest (pubkeys ++ [pubkey])
  end.

(** [[
    func (dbm *DBManager) GetAllowedPubkeys() ([]string, error)
    ]]
    The nil slice of Go is the empty list. *)
Definition GetAllowedPubkeys : M (list string * option error) :=
  r <- db_Query SelectPubkeys Pg.select_pubkeys ;;
  match snd r with
  | Some err =>
      ret ([], Some (Errorf_w ("failed to query allowed pubkeys: " ++ Error err)
                              err))
  | None => ret (scan_rows (fst r) [], None)
  end.

(** ** The relay's hooks (the closures registered in [main]) *)

(** [os.LookupEnv] on the process environment. *)
Fixpoint lookup_env (key : string) (env : list (string * string)) : option string :=
  match env with
  | [] => None
  | (k, v) :: rest => if String.eqb k key then Some v else lookup_env key rest
  end.

Definition os_LookupEnv (key : string) : M (option string) :=
  fun w => (lookup_env key (environ w), w).

(** [[
    func getEnv(key, fallback string) string
    ]] *)
Definition getEnv (key fallback : string) : M string :=
  r <- os_LookupEnv key ;;
  match r with
  | Some value => ret value
  | None => ret fallback
  end.

(** What the hooks read of khatru's and go-nostr's values.  A request
    context carries the connection's authentication state, and
    [khatru.GetAuthed] is the empty string on a connection that has not
    authenticated. *)
Inductive Session : Type :=
| Unauthenticated
| AuthenticatedAs (pubkey : string).

Record Context : Type := mkContext { session : Session }.

Definition GetAuthed (ctx : Context) : string :=
  match session ctx with
  | Unauthenticated => ""
  | AuthenticatedAs pubkey => pubkey
  end.

(** [nostr.Event] *)
Record Event : Type := mkEvent {
  ID : string;
  PubKey : string;
  CreatedAt : Z;
  Kind : Z;
  Tags : list (list string);
  Content : string;
  Sig : string
}.

(** [nostr.Filter] *)
Record Filter : Type := mkFilter {
  IDs : list string;
  Kinds : list Z;
  Authors : list string;
  FilterTags : list (string * list string);
  Since : option Z;
  Until : option Z;
  Limit : Z;
  Search : string
}.

(** [nip86.MethodParams]: the management call being made. *)
Inductive MethodParams : Type :=
| CallAllowPubKey (pubkey reason : string)
| CallBanPubKey (pubkey reason : string)
| CallListAllowedPubKeys
| CallListBannedPubKeys
| CallOther (method : string).

(** [nip86.PubKeyReason] *)
Record PubKeyReason : Type := mkPubKeyReason {
  PKR_PubKey : string;
  PKR_Reason : string
}.

(** The write policy appended to [relay.RejectEvent]. *)
Definition RejectEvent (ctx : Context) (event : Event) : M (bool * string) :=
  ownerPubKey <- getEnv "RELAY_PUBKEY" "" ;;
  r <- IsAllowedPubkey (PubKey event) ;;
  let (isAllowed, err) := r in
  match err with
  | Some e =>
      log_Printf ("Error checking if pubkey is allowed: " ++ Error e) ;;;
      ret (true, "error checking authorization")
  | None =>
      if isAllowed || String.eqb (PubKey event) ownerPubKey then
        ret (false, "")
      else
        ret (true, "this is a private relay, only authorized users can write here")
  end.

(** The read policy appended to [relay.RejectFilter]. *)
Definition RejectFilter (ctx : Context) (filter : Filter) : M (bool * string) :=
  ownerPubKey <- getEnv "RELAY_PUBKEY" "" ;;
  let pubkey := GetAuthed ctx in
  if negb (String.eqb pubkey "") then
    log_Printf ("request from " ++ pubkey ++ String (ascii_of_nat 10) "") ;;;
    r <- IsAllowedPubkey pubkey ;;
    let (isAllowed, err) := r in
    match err with
    | Some e =>
        log_Printf ("Error checking if pubkey is allowed: " ++ Error e) ;;;
        ret (true, "error checking authorization")
    | None =>
        if isAllowed || String.eqb pubkey ownerPubKey then
          ret (false, "")
        else
          ret (true, "this is a private relay, only authorized users can read here")
    end
  else
    ret (true, "auth-required: only authenticated users can read from this relay").

(** The pre-check appended to [relay.ManagementAPI.RejectAPICall]. *)
Definition RejectAPICall (ctx : Context) (mp : MethodParams) : M (bool * string) :=
  let user := GetAuthed ctx in
  ownerPubKey <- getEnv "RELAY_PUBKEY" "" ;;
  if negb (String.eqb user ownerPubKey) then
    ret (true, "go away, intruder")
  else
    ret (false, "").

(** [relay.ManagementAPI.AllowPubKey] *)
Definition AllowPubKey (ctx : Context) (pubkey reason : string) : M (option error) :=
  AddAllowedPubkey pubkey reason.

(** [relay.ManagementAPI.BanPubKey] *)
Definition BanPubKey (ctx : Context) (pubkey reason : string) : M (option error) :=
  RemoveAllowedPubkey pubkey.

(** The loop [for _, pubkey := range pubkeys { result = append(result, ...) }]. *)
Fixpoint range_pubkeys (pubkeys : list string) (result : list PubKeyReason)
  : list PubKeyReason :=
  match pubkeys with
  | [] => result
  | pubkey :: rest =>
      range_pubkeys rest (result ++ [mkPubKeyReason pubkey ""])
  end.

(** [relay.ManagementAPI.ListAllowedPubKeys] *)
Definition ListAllowedPubKeys (ctx : Context)
  : M (list PubKeyReason * option error) :=
  r <- GetAllowedPubkeys ;;
  let (pubkeys, err) := r in
  match err with
  | Some e => ret ([], Some e)
  | None => ret (range_pubkeys pubkeys [], None)
  end.

(** [relay.ManagementAPI.ListBannedPubKeys] *)
Definition ListBannedPubKeys (ctx : Context)
  : M (list PubKeyReason * option error) :=
  ret ([], None).

(** The host's side of the management interface, from the hooks on:
    every [RejectAPICall] hook runs first, and only a call that none
    rejects is dispatched to the operation it names.  khatru itself is
    not part of this repository; this is the contract the hooks are
    registered under.  What khatru checks of the request before it runs
    any hook (the Authorization header, the form of the parameters) is
    not described here: a request refused there reaches neither the
    hooks nor an operation. *)
Inductive Response : Type :=
| Denied (msg : string)
| Failed (err : error)
| Done
| Listing (entries : list PubKeyReason)
| Unsupported.

Definition management_call (ctx : Context) (mp : MethodParams) : M Response :=
  d <- RejectAPICall ctx mp ;;
  let (reject, msg) := d in
  if reject then ret (Denied msg)
  else
    match mp with
    | CallAllowPubKey pubkey reason =>
        err <- AllowPubKey ctx pubkey reason ;;
        match err with Some e => ret (Failed e) | None => ret Done end
    | CallBanPubKey pubkey reason =>
        err <- BanPubKey ctx pubkey reason ;;
        match err with Some e => ret (Failed e) | None => ret Done end
    | CallListAllowedPubKeys =>
        r <- ListAllowedPubKeys ctx ;;
        match snd r with Some e => ret (Failed e) | None => ret (Listing (fst r)) end
    | CallListBannedPubKeys =>
        r <- ListBannedPubKeys ctx ;;
        match snd r with Some e => ret (Failed e) | None => ret (Listing (fst r)) end
    | CallOther _ => ret Unsupported
    end.

(** What [main] writes into [relay.Info] (served on the NIP-11 endpoint). *)
Record RelayInfo : Type := mkRelayInfo {
  InfoName : string;
  InfoPubKey : string;
  InfoDescription : string;
  InfoIcon : string;
  InfoVersion : string;
  InfoSoftware : string
}.

Definition main_Info : M RelayInfo :=
  name <- getEnv "RELAY_NAME" "brove relay" ;;
  pubKey <- getEnv "RELAY_PUBKEY"
              "82c1b69ddb84fb9a8cc68616118a9a1c794dfeb29c8d2ea2cec59af21f9df804" ;;
  description <- getEnv "RELAY_DESCRIPTION" "this is my custom and private relay" ;;
  icon <- getEnv "RELAY_ICON"
            "https://external-content.duckduckgo.com/iu/?u=https%3A%2F%2Fliquipedia.net%2Fcommons%2Fimages%2F3%2F35%2FSCProbe.jpg&f=1&nofb=1&ipt=0cbbfef25bce41da63d910e86c3c343e6c3b9d63194ca9755351bb7c2efa3359&ipo=images" ;;
  ret (mkRelayInfo name pubKey description icon
                   "0.1.0" "https://github.com/mroxso/brove").

(** A run of [AllowPubKey] calls, one after the other, with the error
    each returned. *)
Fixpoint allow_all (ctx : Context) (entries : list (string * string))
  : M (list (option error)) :=
  match entries with
  | [] => ret []
  | (pubkey, reason) :: rest =>
      err <- AllowPubKey ctx pubkey reason ;;
      errs <- allow_all ctx rest ;;
      ret (err :: errs)
  end.

(** The rows such a run appends when every call inserts: the k-th entry
    is stamped with the time of the k-th statement from [n] on. *)
Fixpoint stamped (clk : nat -> Z) (n : nat) (entries : list (string * string))
  : list Row :=
  match entries with
  | [] => []
  | (pubkey, reason) :: rest =>
      mkRow pubkey (Some reason) (clk n) :: stamped clk (S n) rest
  end.

(** ** Vocabulary of the statements below *)

(** The owner identity the hooks compare with. *)
Definition ownerPubKey (w : World) : string :=
  fst (getEnv "RELAY_PUBKEY" "" w).

(** The next [k] round trips to the database succeed. *)
Definition healthy (k : nat) (w : World) : Prop :=
  forall i, i < k -> faults w (List.length (trace w) + i) = None.

(** An identity the [pubkey] column stores as it is. *)
Definition storable (pk : string) : Prop :=
  pk <> "" /\ String.length pk <= 64.

(** The errors of [DBManager] the statements name. *)
Definition empty_pubkey_error : error := Errorf "pubkey cannot be empty".

Definition not_found_error (pk : string) : error :=
  Errorf ("pubkey " ++ pk ++ " not found in allowed list").

(** The table after [INSERT ... ON CONFLICT DO NOTHING] of a storable key. *)
Definition table_with (pk rsn : string) (now : Z) (t : list Row) : list Row :=
  if Pg.has_key pk t then t else t ++ [mkRow pk (Some rsn) now].

(** The table after [DELETE ... WHERE pubkey = pk]. *)
Definition table_without (pk : string) (t : list Row) : list Row :=
  filter (fun r => negb (String.eqb (pubkey r) pk)) t.

(** A small world to run the code in: a healthy database whose clock
    advances with every statement. *)
Definition world0 (env : list (string * string)) (t : list Row) : World :=
  mkWorld env t (fun n => Z.of_nat n) (fun _ => None) [] [].

(** ** Facts about the environment and the round trips *)

Lemma getEnv_eq (key fallback : string) (w : World) :
  getEnv key fallback w =
  (match lookup_env key (environ w) with
   | Some value => value
   | None => fallback
   end, w).
Proof.
  unfold getEnv, bind, os_LookupEnv.
  destruct (lookup_env key (environ w)); reflexivity.
Qed.

Lemma ownerPubKey_eq (w : World) :
  ownerPubKey w =
  match lookup_env "RELAY_PUBKEY" (environ w) with
  | Some value => value
  | None => ""
  end.
Proof. unfold ownerPubKey. rewrite getEnv_eq. reflexivity. Qed.

Lemma getEnv_owner (w : World) :
  getEnv "RELAY_PUBKEY" "" w = (ownerPubKey w, w).
Proof. rewrite ownerPubKey_eq. apply getEnv_eq. Qed.

Lemma healthy_now (k : nat) (w : World) :
  healthy (S k) w -> faults w (List.length (trace w)) = None.
Proof.
  intros H. specialize (H 0 (Nat.lt_0_succ k)).
  now rewrite Nat.add_0_r in H.
Qed.

Lemma healthy_sent (k : nat) (s : Stmt) (t : list Row) (w : World) :
  healthy (S k) w -> healthy k (sent s t w).
Proof.
  intros H i Hi. unfold sent; cbn.
  rewrite length_app; cbn.
  replace (List.length (trace w) + 1 + i) with (List.length (trace w) + S i) by lia.
  apply H. lia.
Qed.

Lemma healthy_le (j k : nat) (w : World) :
  j <= k -> healthy k w -> healthy j w.
Proof. intros Hjk H i Hi. apply H. lia. Qed.

Lemma eqb_empty_false (pk : string) : pk <> "" -> String.eqb pk "" = false.
Proof. intros H. now apply String.eqb_neq. Qed.

(** ** Facts about the table *)

Module PgFacts.
Import Pg.

Lemma has_key_true (pk : string) (t : list Row) :
  has_key pk t = true <-> In pk (map pubkey t).
Proof.
  unfold has_key. rewrite existsb_exists, in_map_iff. split.
  - intros [r [Hin Heq]]. apply String.eqb_eq in Heq. now exists r.
  - intros [r [Heq Hin]]. exists r. split; [assumption|]. now apply String.eqb_eq.
Qed.

Lemma has_key_false (pk : string) (t : list Row) :
  has_key pk t = false <-> ~ In pk (map pubkey t).
Proof.
  rewrite <- has_key_true. destruct (has_key pk t); split; intros; congruence.
Qed.

Lemma count_key_zero (pk : string) (t : list Row) :
  count_key pk t = 0 <-> has_key pk t = false.
Proof.
  unfold count_key, has_key. induction t as [|r t IH]; cbn.
  - tauto.
  - destruct (String.eqb (pubkey r) pk); cbn.
    + split; intros; discriminate.
    + exact IH.
Qed.

Lemma count_key_unique (pk : string) (t : list Row) :
  pk_unique t -> has_key pk t = true -> count_key pk t = 1.
Proof.
  unfold pk_unique. induction t as [|r t IH]; cbn; intros Hnd Hin.
  - discriminate.
  - inversion Hnd as [|? ? Hnotin Hnd']; subst.
    unfold count_key in *; cbn.
    destruct (String.eqb (pubkey r) pk) eqn:E; cbn in *.
    + apply String.eqb_eq in E. subst pk.
      apply has_key_false in Hnotin. apply count_key_zero in Hnotin.
      unfold count_key in Hnotin. now rewrite Hnotin.
    + now apply IH.
Qed.

Lemma has_key_after_delete (pk : string) (t : list Row) :
  has_key pk (filter (fun r => negb (String.eqb (pubkey r) pk)) t) = false.
Proof.
  apply has_key_false. rewrite in_map_iff. intros [r [Heq Hin]].
  apply filter_In in Hin. destruct Hin as [_ Hneq].
  apply String.eqb_eq in Heq. now rewrite Heq in Hneq.
Qed.

Lemma has_key_other_after_delete (pk pk' : string) (t : list Row) :
  pk' <> pk ->
  has_key pk' (filter (fun r => negb (String.eqb (pubkey r) pk)) t) = has_key pk' t.
Proof.
  intros Hneq. unfold has_key. induction t as [|r t IH]; cbn; [reflexivity|].
  destruct (String.eqb (pubkey r) pk) eqn:E; cbn.
  - apply String.eqb_eq in E.
    replace (String.eqb (pubkey r) pk') with false; [exact IH|].
    symmetry. apply String.eqb_neq. congruence.
  - now rewrite IH.
Qed.

Lemma has_key_app (pk : string) (t1 t2 : list Row) :
  has_key pk (t1 ++ t2) = has_key pk t1 || has_key pk t2.
Proof. unfold has_key. apply existsb_app. Qed.

Lemma char_length_le (s : string) : char_length s <= String.length s.
Proof.
  induction s as [|c rest IH]; cbn [char_length String.length]; [lia|].
  destruct (is_continuation c); lia.
Qed.

Lemma varchar_fits (n : nat) (pk : string) :
  String.length pk <= n -> varchar n pk = Some pk.
Proof.
  intros H. unfold varchar.
  assert (Hc : char_length pk <= n) by (pose proof (char_length_le pk); lia).
  apply Nat.leb_le in Hc. now rewrite Hc.
Qed.

(** The primary key stays unique under the two data modifications. *)
Lemma insert_allowed_unique (pk rsn : string) (now : Z) (t : list Row) :
  pk_unique t -> pk_unique (snd (insert_allowed pk rsn now t)).
Proof.
  intros Hu. unfold insert_allowed.
  destruct (varchar 64 pk) as [pk'|]; [|exact Hu].
  destruct (has_key pk' t) eqn:E; [exact Hu|]. cbn.
  unfold pk_unique in *. rewrite map_app. cbn.
  apply has_key_false in E.
  apply NoDup_app; [exact Hu | repeat constructor; intros [] | ].
  intros x Hx [Hx' | []]. subst x. contradiction.
Qed.

Lemma delete_allowed_unique (pk : string) (now : Z) (t : list Row) :
  pk_unique t -> pk_unique (snd (delete_allowed pk now t)).
Proof.
  unfold pk_unique, delete_allowed. cbn.
  induction t as [|r t IH]; cbn; intros Hu; [constructor|].
  inversion Hu as [|? ? Hnotin Hu']; subst.
  destruct (negb (String.eqb (pubkey r) pk)); cbn; [|now apply IH].
  constructor; [|now apply IH].
  rewrite in_map_iff. intros [r' [Heq Hin]]. apply filter_In in Hin.
  apply Hnotin. rewrite in_map_iff. exists r'. tauto.
Qed.

(** ORDER BY created_at sorts, and returns every row once. *)
Lemma insert_by_created_at_perm (r : Row) (l : list Row) :
  Permutation (r :: l) (insert_by_created_at r l).
Proof.
  induction l as [|r' l IH]; cbn; [reflexivity|].
  destruct (created_at r <? created_at r')%Z; [reflexivity|].
  rewrite perm_swap. now constructor.
Qed.

Lemma insert_by_created_at_sorted (r : Row) (l : list Row) :
  Sorted created_le l -> Sorted created_le (insert_by_created_at r l).
Proof.
  induction l as [|r' l IH]; cbn; intros Hs.
  - repeat constructor.
  - destruct (created_at r <? created_at r')%Z eqn:E.
    + constructor; [exact Hs|]. constructor. unfold created_le.
      apply Z.ltb_lt in E. lia.
    + apply Z.ltb_ge in E. inversion Hs as [|? ? Hs' Hhd]; subst.
      constructor; [now apply IH|].
      destruct l as [|r'' l]; cbn.
      * constructor. exact E.
      * destruct (created_at r <? created_at r'')%Z; constructor.
        -- exact E.
        -- now inversion Hhd.
Qed.

Lemma fold_insert_perm (t acc : list Row) :
  Permutation (acc ++ t)
    (fold_left (fun sorted r => insert_by_created_at r sorted) t acc).
Proof.
  revert acc. induction t as [|r t IH]; intros acc; cbn.
  - now rewrite app_nil_r.
  - rewrite <- IH. rewrite <- insert_by_created_at_perm.
    symmetry. apply Permutation_middle.
Qed.

Lemma fold_insert_sorted (t acc : list Row) :
  Sorted created_le acc ->
  Sorted created_le (fold_left (fun sorted r => insert_by_created_at r sorted) t acc).
Proof.
  revert acc. induction t as [|r t IH]; intros acc Hs; cbn; [exact Hs|].
  apply IH. now apply insert_by_created_at_sorted.
Qed.

Lemma order_by_created_at_perm (t : list Row) :
  Permutation t (order_by_created_at t).
Proof. exact (fold_insert_perm t []). Qed.

Lemma order_by_created_at_sorted (t : list Row) :
  Sorted created_le (order_by_created_at t).
Proof. apply fold_insert_sorted. constructor. Qed.

End PgFacts.

(** ** What each [DBManager] method does in one call *)

Section Store.

Variable w : World.

Lemma AddAllowedPubkey_empty (rsn : string) :
  AddAllowedPubkey "" rsn w = (Some empty_pubkey_error, w).
Proof. reflexivity. Qed.

Lemma AddAllowedPubkey_healthy (pk rsn : string) :
  storable pk -> healthy 1 w ->
  AddAllowedPubkey pk rsn w =
  (None, sent (InsertAllowed pk rsn) (table_with pk rsn (clock w (List.length (trace w))) (allowed_pubkeys w)) w).
Proof.
  intros [Hne Hlen] Hh. apply healthy_now in Hh.
  unfold AddAllowedPubkey, bind, db_Exec, round_trip, bind.
  rewrite (eqb_empty_false pk Hne), Hh.
  unfold Pg.insert_allowed, table_with.
  rewrite (PgFacts.varchar_fits 64 pk Hlen).
  destruct (Pg.has_key pk (allowed_pubkeys w)); reflexivity.
Qed.

Lemma AddAllowedPubkey_fault (pk rsn text : string) :
  pk <> "" -> faults w (List.length (trace w)) = Some text ->
  AddAllowedPubkey pk rsn w =
  (Some (Errorf_w ("failed to add allowed pubkey " ++ pk ++ ": " ++ text)
                  (driver_error text)),
   sent (InsertAllowed pk rsn) (allowed_pubkeys w) w).
Proof.
  intros Hne Hf.
  unfold AddAllowedPubkey, bind, db_Exec, round_trip, bind.
  rewrite (eqb_empty_false pk Hne), Hf. reflexivity.
Qed.

Lemma RemoveAllowedPubkey_empty :
  RemoveAllowedPubkey "" w = (Some empty_pubkey_error, w).
Proof. reflexivity. Qed.

Lemma RemoveAllowedPubkey_healthy (pk : string) :
  pk <> "" -> healthy 1 w ->
  RemoveAllowedPubkey pk w =
  (if Pg.has_key pk (allowed_pubkeys w) then None else Some (not_found_error pk),
   sent (DeleteAllowed pk) (table_without pk (allowed_pubkeys w)) w).
Proof.
  intros Hne Hh. apply healthy_now in Hh.
  unfold RemoveAllowedPubkey, bind, db_Exec, round_trip, bind.
  rewrite (eqb_empty_false pk Hne), Hh.
  unfold Pg.delete_allowed, RowsAffected. cbn.
  destruct (Pg.has_key pk (allowed_pubkeys w)) eqn:E.
  - destruct (Pg.count_key pk (allowed_pubkeys w)) eqn:C.
    + apply PgFacts.count_key_zero in C. congruence.
    + reflexivity.
  - apply PgFacts.count_key_zero in E. rewrite E. reflexivity.
Qed.

Lemma RemoveAllowedPubkey_fault (pk text : string) :
  pk <> "" -> faults w (List.length (trace w)) = Some text ->
  RemoveAllowedPubkey pk w =
  (Some (Errorf_w ("failed to remove allowed pubkey " ++ pk ++ ": " ++ text)
                  (driver_error text)),
   sent (DeleteAllowed pk) (allowed_pubkeys w) w).
Proof.
  intros Hne Hf.
  unfold RemoveAllowedPubkey, bind, db_Exec, round_trip, bind.
  rewrite (eqb_empty_false pk Hne), Hf. reflexivity.
Qed.

Lemma IsAllowedPubkey_empty :
  IsAllowedPubkey "" w = ((false, None), w).
Proof. reflexivity. Qed.

Lemma IsAllowedPubkey_healthy (pk : string) :
  pk <> "" -> healthy 1 w ->
  IsAllowedPubkey pk w = ((Pg.has_key pk (allowed_pubkeys w), None), sent (SelectExists pk) (allowed_pubkeys w) w).
Proof.
  intros Hne Hh. apply healthy_now in Hh.
  unfold IsAllowedPubkey, bind, db_QueryRow_Scan, round_trip, bind.
  rewrite (eqb_empty_false pk Hne), Hh. reflexivity.
Qed.

Lemma IsAllowedPubkey_fault (pk text : string) :
  pk <> "" -> faults w (List.length (trace w)) = Some text ->
  IsAllowedPubkey pk w =
  ((false,
    Some (Errorf_w ("failed to check if pubkey " ++ pk ++ " is allowed: " ++ text)
                   (driver_error text))),
   sent (SelectExists pk) (allowed_pubkeys w) w).
Proof.
  intros Hne Hf.
  unfold IsAllowedPubkey, bind, db_QueryRow_Scan, round_trip, bind.
  rewrite (eqb_empty_false pk Hne), Hf. reflexivity.
Qed.

Lemma scan_rows_app (rows pubkeys : list string) :
  scan_rows rows pubkeys = pubkeys ++ rows.
Proof.
  revert pubkeys. induction rows as [|r rows IH]; intros pubkeys; cbn.
  - now rewrite app_nil_r.
  - rewrite IH, <- app_assoc. reflexivity.
Qed.

Lemma GetAllowedPubkeys_healthy :
  healthy 1 w ->
  GetAllowedPubkeys w =
  ((map pubkey (Pg.order_by_created_at (allowed_pubkeys w)), None), sent SelectPubkeys (allowed_pubkeys w) w).
Proof.
  intros Hh. apply healthy_now in Hh.
  unfold GetAllowedPubkeys, bind, db_Query, round_trip, bind.
  rewrite Hh. cbn. rewrite scan_rows_app. reflexivity.
Qed.

Lemma range_pubkeys_app (pubkeys : list string) (result : list PubKeyReason) :
  range_pubkeys pubkeys result =
  result ++ map (fun pk => mkPubKeyReason pk "") pubkeys.
Proof.
  revert result. induction pubkeys as [|pk pubkeys IH]; intros result; cbn.
  - now rewrite app_nil_r.
  - rewrite IH, <- app_assoc. reflexivity.
Qed.

End Store.

(** ** What each hook does, in terms of the lookup it makes *)

Section Hooks.

Variable ctx : Context.
Variable w : World.

Lemma RejectEvent_eq (event : Event) :
  RejectEvent ctx event w =
  match IsAllowedPubkey (PubKey event) w with
  | ((_, Some e), w') =>
      ((true, "error checking authorization"),
       snd (log_Printf ("Error checking if pubkey is allowed: " ++ Error e) w'))
  | ((isAllowed, None), w') =>
      (if isAllowed || String.eqb (PubKey event) (ownerPubKey w)
       then (false, "")
       else (true, "this is a private relay, only authorized users can write here"),
       w')
  end.
Proof.
  unfold RejectEvent, bind at 1. rewrite getEnv_owner.
  unfold bind at 1.
  destruct (IsAllowedPubkey (PubKey event) w) as [[isAllowed [e|]] w'].
  - reflexivity.
  - destruct (isAllowed || String.eqb (PubKey event) (ownerPubKey w)); reflexivity.
Qed.

Lemma RejectFilter_unauthenticated (filter : Filter) :
  GetAuthed ctx = "" ->
  RejectFilter ctx filter w =
  ((true, "auth-required: only authenticated users can read from this relay"), w).
Proof.
  intros H. unfold RejectFilter, bind. rewrite getEnv_owner, H. reflexivity.
Qed.

Lemma RejectFilter_authenticated (filter : Filter) :
  GetAuthed ctx <> "" ->
  RejectFilter ctx filter w =
  let w1 := snd (log_Printf ("request from " ++ GetAuthed ctx
                             ++ String (ascii_of_nat 10) "") w) in
  match IsAllowedPubkey (GetAuthed ctx) w1 with
  | ((_, Some e), w') =>
      ((true, "error checking authorization"),
       snd (log_Printf ("Error checking if pubkey is allowed: " ++ Error e) w'))
  | ((isAllowed, None), w') =>
      (if isAllowed || String.eqb (GetAuthed ctx) (ownerPubKey w)
       then (false, "")
       else (true, "this is a private relay, only authorized users can read here"),
       w')
  end.
Proof.
  intros H. unfold RejectFilter, bind at 1. rewrite getEnv_owner.
  rewrite (eqb_empty_false _ H). cbn [negb].
  unfold bind at 1. cbn [log_Printf snd].
  unfold bind at 1.
  destruct (IsAllowedPubkey (GetAuthed ctx) _) as [[isAllowed [e|]] w'].
  - reflexivity.
  - destruct (isAllowed || String.eqb (GetAuthed ctx) (ownerPubKey w)); reflexivity.
Qed.

Lemma RejectAPICall_eq (mp : MethodParams) :
  RejectAPICall ctx mp w =
  (if String.eqb (GetAuthed ctx) (ownerPubKey w)
   then (false, "") else (true, "go away, intruder"), w).
Proof.
  unfold RejectAPICall, bind. rewrite getEnv_owner.
  destruct (String.eqb (GetAuthed ctx) (ownerPubKey w)); reflexivity.
Qed.

End Hooks.

(** ** Invariants of the store and of the hooks *)

Section Invariants.

Variable w : World.

Lemma round_trip_table {A : Type} (s : Stmt)
    (sem : Z -> list Row -> (A + string) * list Row) :
  allowed_pubkeys (snd (round_trip s sem w)) = allowed_pubkeys w
  \/ allowed_pubkeys (snd (round_trip s sem w))
     = snd (sem (clock w (List.length (trace w))) (allowed_pubkeys w)).
Proof.
  unfold round_trip.
  destruct (faults w (List.length (trace w))); [left; reflexivity|].
  destruct (sem _ _) as [reply t']. right. reflexivity.
Qed.

(** The PRIMARY KEY constraint holds after every [DBManager] method,
    whether or not the round trip succeeds. *)
Lemma AddAllowedPubkey_unique (pk rsn : string) :
  Pg.pk_unique (allowed_pubkeys w) ->
  Pg.pk_unique (allowed_pubkeys (snd (AddAllowedPubkey pk rsn w))).
Proof.
  intros Hu. unfold AddAllowedPubkey.
  destruct (String.eqb pk ""); [exact Hu|].
  unfold bind, db_Exec, bind.
  pose proof (round_trip_table (InsertAllowed pk rsn) (Pg.insert_allowed pk rsn)) as Ht.
  destruct (round_trip _ _ w) as [[n|err] w']; cbn in *;
    (destruct Ht as [Ht|Ht]; rewrite Ht;
     [exact Hu | apply PgFacts.insert_allowed_unique; exact Hu]).
Qed.

Lemma RemoveAllowedPubkey_unique (pk : string) :
  Pg.pk_unique (allowed_pubkeys w) ->
  Pg.pk_unique (allowed_pubkeys (snd (RemoveAllowedPubkey pk w))).
Proof.
  intros Hu. unfold RemoveAllowedPubkey.
  destruct (String.eqb pk ""); [exact Hu|].
  unfold bind, db_Exec, bind.
  pose proof (round_trip_table (DeleteAllowed pk) (Pg.delete_allowed pk)) as Ht.
  destruct (round_trip _ _ w) as [[n|err] w']; cbn in *.
  - destruct (n =? 0)%Z; cbn;
      (destruct Ht as [Ht|Ht]; rewrite Ht;
       [exact Hu | apply (PgFacts.delete_allowed_unique pk 0%Z); exact Hu]).
  - destruct Ht as [Ht|Ht]; rewrite Ht;
      [exact Hu | apply (PgFacts.delete_allowed_unique pk 0%Z); exact Hu].
Qed.

(** The lookups never change the table. *)
Lemma IsAllowedPubkey_table (pk : string) :
  allowed_pubkeys (snd (IsAllowedPubkey pk w)) = allowed_pubkeys w.
Proof.
  unfold IsAllowedPubkey. destruct (String.eqb pk ""); [reflexivity|].
  unfold bind, db_QueryRow_Scan, bind.
  pose proof (round_trip_table (SelectExists pk) (Pg.select_exists pk)) as Ht.
  destruct (round_trip _ _ w) as [[b|err] w']; cbn in *;
    destruct Ht as [Ht|Ht]; exact Ht.
Qed.

Lemma GetAllowedPubkeys_table :
  allowed_pubkeys (snd (GetAllowedPubkeys w)) = allowed_pubkeys w.
Proof.
  unfold GetAllowedPubkeys, bind, db_Query, bind.
  pose proof (round_trip_table SelectPubkeys Pg.select_pubkeys) as Ht.
  destruct (round_trip _ _ w) as [[rows|err] w']; cbn in *;
    destruct Ht as [Ht|Ht]; exact Ht.
Qed.

(** The write policy fails closed: when the lookup for a non-empty
    author fails, the event is rejected, whoever the author is. *)
Lemma RejectEvent_fault (ctx : Context) (event : Event) (text : string) :
  PubKey event <> "" ->
  faults w (List.length (trace w)) = Some text ->
  fst (RejectEvent ctx event w) = (true, "error checking authorization").
Proof.
  intros Hne Hf.
  rewrite RejectEvent_eq, (IsAllowedPubkey_fault w _ text Hne Hf). reflexivity.
Qed.

(** The write policy never changes the table. *)
Lemma RejectEvent_table (ctx : Context) (event : Event) :
  allowed_pubkeys (snd (RejectEvent ctx event w)) = allowed_pubkeys w.
Proof.
  rewrite RejectEvent_eq.
  pose proof (IsAllowedPubkey_table (PubKey event)) as Ht.
  destruct (IsAllowedPubkey (PubKey event) w) as [[isAllowed [e|]] w']; exact Ht.
Qed.

End Invariants.

(** A round trip that succeeds now is a healthy database for one call. *)
Lemma healthy_one (w : World) :
  faults w (List.length (trace w)) = None -> healthy 1 w.
Proof.
  intros Hf i Hi. replace i with 0 by lia. now rewrite Nat.add_0_r.
Qed.

(** ** The write policy and the owner *)

(** C1, as stated, fails: the write policy looks the author up in the
    allowlist before it compares with the owner, and when that lookup
    fails the owner's event is rejected.  Here the owner is "owner1" and
    every round trip to the database fails. *)
Lemma owner_write_rejected_when_lookup_fails :
  ~ (forall (ctx : Context) (event : Event) (w : World),
        PubKey event = ownerPubKey w ->
        fst (RejectEvent ctx event w) = (false, "")
        /\ trace (snd (RejectEvent ctx event w)) = trace w).
Proof.
  intros H.
  specialize (H (mkContext Unauthenticated)
                (mkEvent "" "owner1" 0 1 [] "" "")
                (mkWorld [("RELAY_PUBKEY", "owner1")] []
                         (fun n => Z.of_nat n)
                         (fun _ => Some "dial tcp: connection refused") [] [])
                eq_refl).
  destruct H as [H _]. vm_compute in H. discriminate H.
Qed.

(** C1, amended: for the configured owner identity the write policy
    accepts, in every state of the allowlist, whenever the allowlist
    lookup for the author returns without error; the table is left as
    it was, and for a non-empty owner identity that lookup is sent to
    the database before the owner comparison is made. *)
Theorem owner_write_accepted_when_lookup_succeeds
    (ctx : Context) (event : Event) (w : World) :
  PubKey event = ownerPubKey w ->
  snd (fst (IsAllowedPubkey (PubKey event) w)) = None ->
  fst (RejectEvent ctx event w) = (false, "")
  /\ allowed_pubkeys (snd (RejectEvent ctx event w)) = allowed_pubkeys w
  /\ (PubKey event <> "" ->
      trace (snd (RejectEvent ctx event w))
      = trace w ++ [SelectExists (PubKey event)]).
Proof.
  intros Howner Hok. rewrite RejectEvent_eq.
  destruct (String.eqb (PubKey event) "") eqn:Eempty.
  - apply String.eqb_eq in Eempty. rewrite Eempty in *.
    rewrite IsAllowedPubkey_empty. rewrite <- Howner. cbn.
    split; [reflexivity|]. split; [reflexivity|].
    intros Hne. now elim Hne.
  - apply String.eqb_neq in Eempty.
    destruct (faults w (List.length (trace w))) as [text|] eqn:Ef.
    + rewrite (IsAllowedPubkey_fault w _ text Eempty Ef) in Hok. discriminate Hok.
    + rewrite (IsAllowedPubkey_healthy w _ Eempty (healthy_one w Ef)).
      rewrite Howner, String.eqb_refl, orb_true_r. cbn.
      split; [reflexivity|]. split; reflexivity.
Qed.

Lemma owner_write_accepted_when_lookup_succeeds_witness :
  let ctx := mkContext Unauthenticated in
  let event := mkEvent "" "owner1" 0 1 [] "gm" "" in
  let w := world0 [("RELAY_PUBKEY", "owner1")] [] in
  fst (RejectEvent ctx event w) = (false, "")
  /\ allowed_pubkeys (snd (RejectEvent ctx event w)) = allowed_pubkeys w
  /\ (PubKey event <> "" ->
      trace (snd (RejectEvent ctx event w))
      = trace w ++ [SelectExists (PubKey event)]).
Proof.
  intros ctx event w.
  apply (owner_write_accepted_when_lookup_succeeds ctx event w).
  - reflexivity.
  - reflexivity.
Defined.

(** ** The management pre-check *)

(** C2: a caller that is not the owner is rejected by the management
    pre-check with the one message "go away, intruder", whatever
    operation is called; the call is not dispatched, and neither the
    table nor anything else in the world changes. *)
Theorem management_rejects_non_owner
    (ctx : Context) (mp : MethodParams) (w : World) :
  GetAuthed ctx <> ownerPubKey w ->
  RejectAPICall ctx mp w = ((true, "go away, intruder"), w)
  /\ management_call ctx mp w = (Denied "go away, intruder", w).
Proof.
  intros Hne. apply String.eqb_neq in Hne.
  assert (H : RejectAPICall ctx mp w = ((true, "go away, intruder"), w)).
  { rewrite RejectAPICall_eq, Hne. reflexivity. }
  split; [exact H|].
  unfold management_call, bind. rewrite H. reflexivity.
Qed.

Lemma management_rejects_non_owner_witness :
  let ctx := mkContext (AuthenticatedAs "alice") in
  let w := world0 [("RELAY_PUBKEY", "owner1")] [] in
  GetAuthed ctx <> ownerPubKey w
  /\ RejectAPICall ctx (CallAllowPubKey "carol" "") w
     = ((true, "go away, intruder"), w)
  /\ management_call ctx (CallAllowPubKey "carol" "") w
     = (Denied "go away, intruder", w).
Proof.
  intros ctx w.
  assert (Hne : GetAuthed ctx <> ownerPubKey w) by (vm_compute; discriminate).
  split; [exact Hne|].
  exact (management_rejects_non_owner ctx (CallAllowPubKey "carol" "") w Hne).
Defined.

(** ** The read policy *)

(** C3: whatever the filter, the read policy rejects a connection with
    no authenticated identity with a message that starts with the
    sentinel "auth-required: ", and rejects a connection authenticated
    as an identity that is neither the owner nor in the allowlist
    (storage healthy) with the private-relay message for reads. *)
Theorem read_policy_rejections
    (ctx : Context) (filter : Filter) (w : World) :
  (GetAuthed ctx = "" ->
   exists msg,
     RejectFilter ctx filter w = ((true, msg), w)
     /\ String.prefix "auth-required: " msg = true)
  /\
  (GetAuthed ctx <> "" ->
   GetAuthed ctx <> ownerPubKey w ->
   healthy 1 w ->
   Pg.has_key (GetAuthed ctx) (allowed_pubkeys w) = false ->
   fst (RejectFilter ctx filter w)
   = (true, "this is a private relay, only authorized users can read here")).
Proof.
  split.
  - intros H. eexists. split.
    + apply RejectFilter_unauthenticated. exact H.
    + reflexivity.
  - intros Hauth Hne Hh Habsent.
    rewrite (RejectFilter_authenticated ctx w filter Hauth). cbv zeta.
    rewrite IsAllowedPubkey_healthy; [|exact Hauth|exact Hh].
    cbn [log_Printf snd allowed_pubkeys]. rewrite Habsent.
    apply String.eqb_neq in Hne. rewrite Hne. reflexivity.
Qed.

Lemma read_policy_rejections_witness :
  let filter := mkFilter [] [1%Z] ["alice"] [] None None 10 "" in
  let w := world0 [("RELAY_PUBKEY", "owner1")] [mkRow "alice" (Some "friend") 0] in
  (exists msg,
     RejectFilter (mkContext Unauthenticated) filter w = ((true, msg), w)
     /\ String.prefix "auth-required: " msg = true)
  /\ fst (RejectFilter (mkContext (AuthenticatedAs "bob")) filter w)
     = (true, "this is a private relay, only authorized users can read here").
Proof.
  intros filter w. split.
  - apply (proj1 (read_policy_rejections (mkContext Unauthenticated) filter w)).
    reflexivity.
  - apply (proj2 (read_policy_rejections (mkContext (AuthenticatedAs "bob")) filter w)).
    + vm_compute; discriminate.
    + vm_compute; discriminate.
    + intros i Hi. reflexivity.
    + reflexivity.
Defined.

(** ** The write policy and the allowlist *)

(** C4: for an author that is not the owner, when the allowlist lookup
    succeeds with answer [b], the write policy accepts exactly when [b]
    is true, and otherwise rejects with the fixed private-relay message
    for writes; for a non-empty identity [b] says whether the table has
    a row for it. *)
Theorem write_policy_follows_allowlist
    (ctx : Context) (event : Event) (w : World) (b : bool) :
  PubKey event <> ownerPubKey w ->
  fst (IsAllowedPubkey (PubKey event) w) = (b, None) ->
  (fst (fst (RejectEvent ctx event w)) = false <-> b = true)
  /\ (b = true -> fst (RejectEvent ctx event w) = (false, ""))
  /\ (b = false ->
      fst (RejectEvent ctx event w)
      = (true, "this is a private relay, only authorized users can write here"))
  /\ (PubKey event <> "" ->
      (b = true <-> In (PubKey event) (map pubkey (allowed_pubkeys w)))).
Proof.
  intros Hne Hok.
  assert (Htable : PubKey event <> "" ->
            (b = true <-> In (PubKey event) (map pubkey (allowed_pubkeys w)))).
  { intros Hnonempty.
    destruct (faults w (List.length (trace w))) as [text|] eqn:Ef.
    - rewrite (IsAllowedPubkey_fault w _ text Hnonempty Ef) in Hok. discriminate Hok.
    - rewrite (IsAllowedPubkey_healthy w _ Hnonempty (healthy_one w Ef)) in Hok.
      cbn in Hok. injection Hok as Hb. rewrite <- Hb.
      apply PgFacts.has_key_true. }
  rewrite RejectEvent_eq. apply String.eqb_neq in Hne.
  destruct (IsAllowedPubkey (PubKey event) w) as [[isAllowed err] w'].
  cbn in Hok. injection Hok as Hb Herr. subst isAllowed err.
  rewrite Hne, orb_false_r.
  destruct b; cbn [fst].
  - split; [tauto|]. split; [reflexivity|]. split; [discriminate | exact Htable].
  - split; [split; discriminate|]. split; [discriminate|].
    split; [reflexivity | exact Htable].
Qed.

Lemma write_policy_follows_allowlist_witness :
  let ctx := mkContext Unauthenticated in
  let event := mkEvent "" "bob" 0 1 [] "hello" "" in
  let w := world0 [("RELAY_PUBKEY", "owner1")] [mkRow "alice" (Some "friend") 0] in
  (fst (fst (RejectEvent ctx event w)) = false <-> false = true)
  /\ (false = true -> fst (RejectEvent ctx event w) = (false, ""))
  /\ (false = false ->
      fst (RejectEvent ctx event w)
      = (true, "this is a private relay, only authorized users can write here"))
  /\ (PubKey event <> "" ->
      (false = true <-> In (PubKey event) (map pubkey (allowed_pubkeys w)))).
Proof.
  intros ctx event w.
  apply (write_policy_follows_allowlist ctx event w false).
  - vm_compute; discriminate.
  - reflexivity.
Defined.

(** ** The allowlist store *)

(** C5: for a non-empty identity and a healthy database, [remove]
    returns the not-found error exactly when the table had no row for
    the identity before the call, and [ban] is [remove]; when a row
    existed the call succeeds, the row is gone, and a following
    [contains] answers false. *)
Theorem remove_not_found_iff_absent
    (ctx : Context) (X rsn : string) (w : World) :
  X <> "" ->
  healthy 2 w ->
  BanPubKey ctx X rsn w = RemoveAllowedPubkey X w
  /\ (fst (RemoveAllowedPubkey X w) = Some (not_found_error X)
      <-> ~ In X (map pubkey (allowed_pubkeys w)))
  /\ (In X (map pubkey (allowed_pubkeys w)) ->
      fst (RemoveAllowedPubkey X w) = None
      /\ ~ In X (map pubkey (allowed_pubkeys (snd (RemoveAllowedPubkey X w))))
      /\ fst (IsAllowedPubkey X (snd (RemoveAllowedPubkey X w))) = (false, None)).
Proof.
  intros Hne Hh.
  assert (Hh1 : healthy 1 w) by (apply (healthy_le 1 2); [lia | exact Hh]).
  split; [reflexivity|].
  rewrite (RemoveAllowedPubkey_healthy w X Hne Hh1). cbn [fst snd].
  split.
  - rewrite <- PgFacts.has_key_false.
    destruct (Pg.has_key X (allowed_pubkeys w)); split; intros H;
      try reflexivity; discriminate H.
  - intros Hin. apply PgFacts.has_key_true in Hin. rewrite Hin.
    split; [reflexivity|]. split.
    + apply PgFacts.has_key_false. apply PgFacts.has_key_after_delete.
    + rewrite IsAllowedPubkey_healthy;
        [| exact Hne | apply healthy_sent; exact Hh].
      cbn [fst sent allowed_pubkeys]. unfold table_without.
      now rewrite PgFacts.has_key_after_delete.
Qed.

Lemma remove_not_found_iff_absent_witness :
  let ctx := mkContext (AuthenticatedAs "owner1") in
  let w := world0 [("RELAY_PUBKEY", "owner1")] [mkRow "alice" (Some "friend") 0] in
  (fst (RemoveAllowedPubkey "dave" w) = Some (not_found_error "dave")
   <-> ~ In "dave" (map pubkey (allowed_pubkeys w)))
  /\ fst (RemoveAllowedPubkey "alice" w) = None.
Proof.
  intros ctx w.
  assert (Hh : healthy 2 w) by (intros i Hi; reflexivity).
  split.
  - apply (remove_not_found_iff_absent ctx "dave" "" w); [discriminate | exact Hh].
  - apply (remove_not_found_iff_absent ctx "alice" "" w); [discriminate | exact Hh |].
    left. reflexivity.
Defined.

(** [remove] after a successful [add] of the same identity. *)
Lemma remove_after_add (X rsn : string) (w : World) :
  storable X ->
  healthy 3 w ->
  fst ((AddAllowedPubkey X rsn ;;; RemoveAllowedPubkey X ;;; IsAllowedPubkey X) w)
  = (false, None)
  /\ fst ((AddAllowedPubkey X rsn ;;; RemoveAllowedPubkey X) w) = None.
Proof.
  intros Hst Hh. unfold bind.
  rewrite AddAllowedPubkey_healthy;
    [| exact Hst | apply (healthy_le 1 3); [lia | exact Hh]].
  pose proof (healthy_sent 2 (InsertAllowed X rsn)
                (table_with X rsn (clock w (List.length (trace w))) (allowed_pubkeys w))
                w Hh) as Hh2.
  destruct Hst as [Hne _].
  rewrite RemoveAllowedPubkey_healthy;
    [| exact Hne | apply (healthy_le 1 2); [lia | exact Hh2]].
  rewrite IsAllowedPubkey_healthy;
    [| exact Hne | apply healthy_sent; exact Hh2].
  cbn [fst snd sent allowed_pubkeys]. unfold table_without at 1.
  rewrite PgFacts.has_key_after_delete. split; [reflexivity|].
  unfold table_with.
  destruct (Pg.has_key X (allowed_pubkeys w)) eqn:E.
  - now rewrite E.
  - rewrite PgFacts.has_key_app. cbn. now rewrite String.eqb_refl, orb_true_r.
Qed.

(** C6: [add] is idempotent.  For a storable identity and a healthy
    database, two calls [add(X, r)] both return without error, the
    second leaves the table as the first made it, and the table then
    has exactly one row for X. *)
Theorem add_idempotent (X r : string) (w : World) :
  storable X ->
  healthy 2 w ->
  Pg.pk_unique (allowed_pubkeys w) ->
  fst (AddAllowedPubkey X r w) = None
  /\ fst (AddAllowedPubkey X r (snd (AddAllowedPubkey X r w))) = None
  /\ allowed_pubkeys (snd (AddAllowedPubkey X r (snd (AddAllowedPubkey X r w))))
     = allowed_pubkeys (snd (AddAllowedPubkey X r w))
  /\ Pg.count_key X
       (allowed_pubkeys (snd (AddAllowedPubkey X r (snd (AddAllowedPubkey X r w)))))
     = 1.
Proof.
  intros Hst Hh Hu.
  rewrite (AddAllowedPubkey_healthy w X r Hst (healthy_le 1 2 w (Nat.le_succ_diag_r 1) Hh)).
  cbn [fst snd].
  rewrite AddAllowedPubkey_healthy; [| exact Hst | apply healthy_sent; exact Hh].
  cbn [fst snd sent allowed_pubkeys trace clock].
  set (t1 := table_with X r (clock w (List.length (trace w))) (allowed_pubkeys w)).
  assert (Hin : Pg.has_key X t1 = true).
  { unfold t1, table_with.
    destruct (Pg.has_key X (allowed_pubkeys w)) eqn:E; [exact E|].
    rewrite PgFacts.has_key_app. cbn. now rewrite String.eqb_refl, orb_true_r. }
  assert (Hu1 : Pg.pk_unique t1).
  { pose proof (PgFacts.insert_allowed_unique X r
                  (clock w (List.length (trace w))) (allowed_pubkeys w) Hu) as H.
    unfold Pg.insert_allowed in H.
    rewrite (PgFacts.varchar_fits 64 X (proj2 Hst)) in H.
    unfold t1, table_with.
    destruct (Pg.has_key X (allowed_pubkeys w)); exact H. }
  assert (Hsame : forall now, table_with X r now t1 = t1).
  { intros now. unfold table_with at 1. now rewrite Hin. }
  rewrite Hsame.
  split; [reflexivity|]. split; [reflexivity|]. split; [reflexivity|].
  now apply PgFacts.count_key_unique.
Qed.

Lemma add_idempotent_witness :
  let w := world0 [("RELAY_PUBKEY", "owner1")] [mkRow "alice" (Some "friend") 0] in
  fst (AddAllowedPubkey "carol" "" w) = None
  /\ fst (AddAllowedPubkey "carol" "" (snd (AddAllowedPubkey "carol" "" w))) = None
  /\ allowed_pubkeys (snd (AddAllowedPubkey "carol" "" (snd (AddAllowedPubkey "carol" "" w))))
     = allowed_pubkeys (snd (AddAllowedPubkey "carol" "" w))
  /\ Pg.count_key "carol"
       (allowed_pubkeys (snd (AddAllowedPubkey "carol" "" (snd (AddAllowedPubkey "carol" "" w)))))
     = 1.
Proof.
  intros w. apply (add_idempotent "carol" "" w).
  - split; [discriminate | cbn; lia].
  - intros i Hi. reflexivity.
  - repeat constructor. intros [].
Defined.

(** C7: an empty identity is refused by [add] and by [remove] with the
    caller error "pubkey cannot be empty", and [contains] of the empty
    identity is false without error; in all three the world, and with
    it the list of statements sent to the database, is as before. *)
Theorem empty_identity_rejected (rsn : string) (w : World) :
  AddAllowedPubkey "" rsn w = (Some empty_pubkey_error, w)
  /\ RemoveAllowedPubkey "" w = (Some empty_pubkey_error, w)
  /\ IsAllowedPubkey "" w = ((false, None), w).
Proof.
  split; [apply AddAllowedPubkey_empty|].
  split; [apply RemoveAllowedPubkey_empty | apply IsAllowedPubkey_empty].
Qed.

(** ** Listing *)

Lemma ListAllowedPubKeys_healthy (ctx : Context) (w : World) :
  healthy 1 w ->
  ListAllowedPubKeys ctx w =
  ((map (fun pk => mkPubKeyReason pk "")
        (map pubkey (Pg.order_by_created_at (allowed_pubkeys w))), None),
   sent SelectPubkeys (allowed_pubkeys w) w).
Proof.
  intros Hh. unfold ListAllowedPubKeys, bind.
  rewrite (GetAllowedPubkeys_healthy w Hh), range_pubkeys_app. reflexivity.
Qed.

(** C8: on a healthy database [list] returns, without error, the
    identities of all rows in ascending order of [created_at]; after
    [add(A)] and then [add(B)] into an empty table, with the clock
    advancing between the two, it returns [A; B]; and on an empty table
    it returns the empty sequence and no error. *)
Theorem list_in_creation_order
    (w w0 : World) (A B rA rB : string) :
  healthy 1 w ->
  allowed_pubkeys w0 = [] ->
  healthy 3 w0 ->
  storable A -> storable B -> A <> B ->
  (clock w0 (List.length (trace w0)) < clock w0 (S (List.length (trace w0))))%Z ->
  (exists rows,
      Permutation rows (allowed_pubkeys w)
      /\ Sorted Pg.created_le rows
      /\ fst (GetAllowedPubkeys w) = (map pubkey rows, None))
  /\ fst ((AddAllowedPubkey A rA ;;; AddAllowedPubkey B rB ;;; GetAllowedPubkeys) w0)
     = ([A; B], None)
  /\ fst (GetAllowedPubkeys w0) = ([], None).
Proof.
  intros Hh Hempty Hh0 HA HB Hneq Hclock.
  split; [|split].
  - exists (Pg.order_by_created_at (allowed_pubkeys w)).
    split; [symmetry; apply PgFacts.order_by_created_at_perm|].
    split; [apply PgFacts.order_by_created_at_sorted|].
    now rewrite GetAllowedPubkeys_healthy.
  - unfold bind.
    rewrite AddAllowedPubkey_healthy;
      [| exact HA | apply (healthy_le 1 3); [lia | exact Hh0]].
    pose proof (healthy_sent 2 (InsertAllowed A rA)
                  (table_with A rA (clock w0 (List.length (trace w0))) (allowed_pubkeys w0))
                  w0 Hh0) as Hh1.
    rewrite AddAllowedPubkey_healthy;
      [| exact HB | apply (healthy_le 1 2); [lia | exact Hh1]].
    rewrite GetAllowedPubkeys_healthy; [| apply healthy_sent; exact Hh1].
    cbn [fst snd sent allowed_pubkeys trace clock].
    rewrite Hempty, last_length. unfold table_with. cbn.
    apply String.eqb_neq in Hneq. rewrite Hneq. cbn.
    replace (clock w0 (S (List.length (trace w0))) <? clock w0 (List.length (trace w0)))%Z
      with false by (symmetry; apply Z.ltb_ge; lia).
    reflexivity.
  - rewrite GetAllowedPubkeys_healthy;
      [| apply (healthy_le 1 3); [lia | exact Hh0]].
    now rewrite Hempty.
Qed.

Lemma list_in_creation_order_witness :
  let w := world0 [] [mkRow "carol" None 7; mkRow "alice" (Some "friend") 2] in
  let w0 := world0 [] [] in
  (exists rows,
      Permutation rows (allowed_pubkeys w)
      /\ Sorted Pg.created_le rows
      /\ fst (GetAllowedPubkeys w) = (map pubkey rows, None))
  /\ fst ((AddAllowedPubkey "alice" "friend" ;;; AddAllowedPubkey "bob" "" ;;;
           GetAllowedPubkeys) w0)
     = (["alice"; "bob"], None)
  /\ fst (GetAllowedPubkeys w0) = ([], None).
Proof.
  intros w w0.
  apply (list_in_creation_order w w0 "alice" "bob" "friend" "").
  - intros i Hi. reflexivity.
  - reflexivity.
  - intros i Hi. reflexivity.
  - split; [discriminate | cbn; lia].
  - split; [discriminate | cbn; lia].
  - discriminate.
  - cbn. lia.
Defined.

(** C9 does not hold of the code: [ListAllowedPubKeys] gives every
    entry the empty reason.  After [allow("alice", "friend")] on an
    empty table the stored row carries the reason "friend", and the
    listing returns alice with the reason "". *)
Theorem listing_drops_stored_reason :
  let ctx := mkContext (AuthenticatedAs "owner1") in
  let w := world0 [("RELAY_PUBKEY", "owner1")] [] in
  let w1 := snd (AllowPubKey ctx "alice" "friend" w) in
  fst (AllowPubKey ctx "alice" "friend" w) = None
  /\ map (fun r => (pubkey r, reason r)) (allowed_pubkeys w1)
     = [("alice", Some "friend")]
  /\ fst (ListAllowedPubKeys ctx w1) = ([mkPubKeyReason "alice" ""], None).
Proof. vm_compute. repeat split. Qed.

(** ** The owner identity when RELAY_PUBKEY is unset *)

(** C10: when RELAY_PUBKEY is not in the environment the three hooks
    compare with the empty string.  A management caller whose
    authenticated identity is the empty string passes the pre-check for
    every management call, and an event whose author is the empty
    string is accepted by the write policy, with no database access.
    The empty string is the only identity the hooks then treat as the
    owner: the pre-check rejects every other caller, and on a healthy
    database the write and the read policy decide for a non-empty
    identity by the allowlist alone. *)
Theorem unset_owner_is_empty_identity
    (ctx : Context) (mp : MethodParams) (event : Event) (w : World) :
  lookup_env "RELAY_PUBKEY" (environ w) = None ->
  GetAuthed ctx = "" ->
  PubKey event = "" ->
  getEnv "RELAY_PUBKEY" "" w = ("", w)
  /\ RejectAPICall ctx mp w = ((false, ""), w)
  /\ RejectEvent ctx event w = ((false, ""), w)
  /\ (forall (ctx' : Context) (mp' : MethodParams),
        RejectAPICall ctx' mp' w
        = (if String.eqb (GetAuthed ctx') ""
           then (false, "") else (true, "go away, intruder"), w))
  /\ (forall (ctx' : Context) (event' : Event),
        healthy 1 w ->
        PubKey event' <> "" ->
        fst (RejectEvent ctx' event' w)
        = (if Pg.has_key (PubKey event') (allowed_pubkeys w)
           then (false, "")
           else (true, "this is a private relay, only authorized users can write here")))
  /\ (forall (ctx' : Context) (filter : Filter),
        healthy 1 w ->
        GetAuthed ctx' <> "" ->
        fst (RejectFilter ctx' filter w)
        = (if Pg.has_key (GetAuthed ctx') (allowed_pubkeys w)
           then (false, "")
           else (true, "this is a private relay, only authorized users can read here"))).
Proof.
  intros Hunset Hanon Hauthor.
  assert (Howner : ownerPubKey w = "") by (now rewrite ownerPubKey_eq, Hunset).
  split; [rewrite getEnv_owner, Howner; reflexivity|].
  split; [now rewrite RejectAPICall_eq, Hanon, Howner|].
  split.
  { rewrite RejectEvent_eq, Hauthor, IsAllowedPubkey_empty, Howner. reflexivity. }
  split.
  { intros ctx' mp'. rewrite RejectAPICall_eq, Howner. reflexivity. }
  split.
  - intros ctx' event' Hh Hne.
    rewrite RejectEvent_eq, (IsAllowedPubkey_healthy w _ Hne Hh), Howner.
    rewrite (eqb_empty_false _ Hne), orb_false_r. cbn [fst].
    destruct (Pg.has_key (PubKey event') (allowed_pubkeys w)); reflexivity.
  - intros ctx' filter Hh Hne.
    rewrite (RejectFilter_authenticated ctx' w filter Hne). cbv zeta.
    rewrite IsAllowedPubkey_healthy; [| exact Hne | exact Hh].
    cbn [log_Printf snd allowed_pubkeys]. rewrite Howner.
    rewrite (eqb_empty_false _ Hne), orb_false_r. cbn [fst].
    destruct (Pg.has_key (GetAuthed ctx') (allowed_pubkeys w)); reflexivity.
Qed.

Lemma unset_owner_is_empty_identity_witness :
  let ctx := mkContext Unauthenticated in
  let event := mkEvent "" "" 0 1 [] "anyone" "" in
  let mp := CallAllowPubKey
              "82c1b69ddb84fb9a8cc68616118a9a1c794dfeb29c8d2ea2cec59af21f9df804" "" in
  let w := world0 [("RELAY_NAME", "brove relay")] [] in
  getEnv "RELAY_PUBKEY" "" w = ("", w)
  /\ RejectAPICall ctx mp w = ((false, ""), w)
  /\ RejectEvent ctx event w = ((false, ""), w).
Proof.
  intros ctx event mp w.
  destruct (unset_owner_is_empty_identity ctx mp event w eq_refl eq_refl eq_refl)
    as (Henv & Hpre & Hwrite & _).
  split; [exact Henv|]. split; [exact Hpre | exact Hwrite].
Defined.

(** * Further properties of the hooks and of the store *)

(** ** The hooks only read *)

Section Lookups.

Variable w : World.

Lemma IsAllowedPubkey_trace (pk : string) :
  trace (snd (IsAllowedPubkey pk w)) = trace w
  \/ trace (snd (IsAllowedPubkey pk w)) = trace w ++ [SelectExists pk].
Proof.
  unfold IsAllowedPubkey. destruct (String.eqb pk ""); [left; reflexivity|].
  right. unfold bind, db_QueryRow_Scan, bind, round_trip.
  destruct (faults w (List.length (trace w))); reflexivity.
Qed.

Lemma RejectFilter_table (ctx : Context) (filter : Filter) :
  allowed_pubkeys (snd (RejectFilter ctx filter w)) = allowed_pubkeys w.
Proof.
  destruct (String.eqb (GetAuthed ctx) "") eqn:E.
  - apply String.eqb_eq in E. now rewrite RejectFilter_unauthenticated.
  - apply String.eqb_neq in E. rewrite (RejectFilter_authenticated ctx w filter E).
    cbv zeta.
    set (w1 := snd (log_Printf _ w)).
    pose proof (IsAllowedPubkey_table w1 (GetAuthed ctx)) as Ht.
    destruct (IsAllowedPubkey (GetAuthed ctx) w1) as [[isAllowed [e|]] w']; exact Ht.
Qed.

Lemma RejectEvent_trace (ctx : Context) (event : Event) :
  trace (snd (RejectEvent ctx event w)) = trace w
  \/ trace (snd (RejectEvent ctx event w)) = trace w ++ [SelectExists (PubKey event)].
Proof.
  rewrite RejectEvent_eq.
  pose proof (IsAllowedPubkey_trace (PubKey event)) as Ht.
  destruct (IsAllowedPubkey (PubKey event) w) as [[isAllowed [e|]] w']; exact Ht.
Qed.

End Lookups.

Lemma RejectFilter_trace (ctx : Context) (filter : Filter) (w : World) :
  trace (snd (RejectFilter ctx filter w)) = trace w
  \/ trace (snd (RejectFilter ctx filter w)) = trace w ++ [SelectExists (GetAuthed ctx)].
Proof.
  destruct (String.eqb (GetAuthed ctx) "") eqn:E.
  - apply String.eqb_eq in E. left. now rewrite RejectFilter_unauthenticated.
  - apply String.eqb_neq in E. rewrite (RejectFilter_authenticated ctx w filter E).
    cbv zeta.
    set (w1 := snd (log_Printf _ w)).
    pose proof (IsAllowedPubkey_trace w1 (GetAuthed ctx)) as Ht.
    destruct (IsAllowedPubkey (GetAuthed ctx) w1) as [[isAllowed [e|]] w']; exact Ht.
Qed.

(** X1: on a healthy database the read policy accepts a connection
    authenticated as a non-empty identity exactly when that identity is
    the owner or has a row in the allowlist; an accepted request gets the
    empty message. *)
Theorem read_policy_decision (ctx : Context) (filter : Filter) (w : World) :
  GetAuthed ctx <> "" ->
  healthy 1 w ->
  (fst (RejectFilter ctx filter w) = (false, "")
   <-> (GetAuthed ctx = ownerPubKey w
        \/ In (GetAuthed ctx) (map pubkey (allowed_pubkeys w))))
  /\ (fst (fst (RejectFilter ctx filter w)) = false
      -> fst (RejectFilter ctx filter w) = (false, "")).
Proof.
  intros Hauth Hh.
  rewrite (RejectFilter_authenticated ctx w filter Hauth). cbv zeta.
  rewrite IsAllowedPubkey_healthy; [| exact Hauth | exact Hh].
  cbn [log_Printf snd allowed_pubkeys fst].
  rewrite <- PgFacts.has_key_true.
  destruct (Pg.has_key (GetAuthed ctx) (allowed_pubkeys w)); cbn [orb fst].
  - split; [|reflexivity]. split; [right; reflexivity | reflexivity].
  - destruct (String.eqb (GetAuthed ctx) (ownerPubKey w)) eqn:E; cbn [fst].
    + apply String.eqb_eq in E. split; [|reflexivity].
      split; [left; exact E | reflexivity].
    + apply String.eqb_neq in E. split; [|discriminate].
      split; [discriminate | intros [H|H]; [contradiction | discriminate]].
Qed.

Lemma read_policy_decision_witness :
  let filter := mkFilter [] [1%Z] [] [] None None 10 "" in
  let w := world0 [("RELAY_PUBKEY", "owner1")] [mkRow "alice" (Some "friend") 0] in
  fst (RejectFilter (mkContext (AuthenticatedAs "alice")) filter w) = (false, "")
  /\ fst (RejectFilter (mkContext (AuthenticatedAs "owner1")) filter w) = (false, "").
Proof.
  intros filter w.
  assert (Hh : healthy 1 w) by (intros i Hi; reflexivity).
  assert (Ha : "alice" <> "") by discriminate.
  assert (Ho : "owner1" <> "") by discriminate.
  split.
  - apply (proj1 (read_policy_decision (mkContext (AuthenticatedAs "alice"))
                    filter w Ha Hh)).
    right. left. reflexivity.
  - apply (proj1 (read_policy_decision (mkContext (AuthenticatedAs "owner1"))
                    filter w Ho Hh)).
    left. reflexivity.
Defined.

(** X2: the write policy fails closed.  When the lookup for a non-empty
    author fails, the event is rejected with the fixed message "error
    checking authorization", which does not depend on the driver's
    error; the driver's text goes to the log only, and the table is as
    before. *)
Theorem write_policy_fails_closed
    (ctx : Context) (event : Event) (w : World) (text : string) :
  PubKey event <> "" ->
  faults w (List.length (trace w)) = Some text ->
  fst (RejectEvent ctx event w) = (true, "error checking authorization")
  /\ log (snd (RejectEvent ctx event w))
     = log w ++ [("Error checking if pubkey is allowed: failed to check if pubkey "
                  ++ PubKey event ++ " is allowed: " ++ text)%string]
  /\ allowed_pubkeys (snd (RejectEvent ctx event w)) = allowed_pubkeys w.
Proof.
  intros Hne Hf.
  rewrite RejectEvent_eq, (IsAllowedPubkey_fault w _ text Hne Hf).
  repeat split.
Qed.

Lemma write_policy_fails_closed_witness :
  let w := mkWorld [("RELAY_PUBKEY", "owner1")] [mkRow "alice" (Some "friend") 0]
                   (fun n => Z.of_nat n) (fun _ => Some "EOF") [] [] in
  fst (RejectEvent (mkContext Unauthenticated)
                   (mkEvent "" "alice" 0 1 [] "gm" "") w)
  = (true, "error checking authorization").
Proof.
  intros w.
  apply (write_policy_fails_closed (mkContext Unauthenticated)
           (mkEvent "" "alice" 0 1 [] "gm" "") w "EOF").
  - discriminate.
  - reflexivity.
Defined.

(** X3: the read policy fails closed.  When the lookup for the
    authenticated identity fails, the request is rejected with the
    fixed message "error checking authorization", also for the owner
    and for allowed identities, and the table is as before. *)
Theorem read_policy_fails_closed
    (ctx : Context) (filter : Filter) (w : World) (text : string) :
  GetAuthed ctx <> "" ->
  faults w (List.length (trace w)) = Some text ->
  fst (RejectFilter ctx filter w) = (true, "error checking authorization")
  /\ allowed_pubkeys (snd (RejectFilter ctx filter w)) = allowed_pubkeys w.
Proof.
  intros Hauth Hf. split; [|apply RejectFilter_table].
  rewrite (RejectFilter_authenticated ctx w filter Hauth). cbv zeta.
  rewrite (IsAllowedPubkey_fault _ _ text Hauth); [reflexivity|].
  exact Hf.
Qed.

Lemma read_policy_fails_closed_witness :
  let w := mkWorld [("RELAY_PUBKEY", "owner1")] []
                   (fun n => Z.of_nat n) (fun _ => Some "EOF") [] [] in
  fst (RejectFilter (mkContext (AuthenticatedAs "owner1"))
                    (mkFilter [] [] [] [] None None 0 "") w)
  = (true, "error checking authorization").
Proof.
  intros w.
  apply (read_policy_fails_closed (mkContext (AuthenticatedAs "owner1"))
           (mkFilter [] [] [] [] None None 0 "") w "EOF").
  - discriminate.
  - reflexivity.
Defined.

(** X4: the three hooks never modify the allowlist, whatever the state
    of the database: the write and the read policy leave the table as
    it was and send at most one statement, a SELECT EXISTS for the
    identity they check; the management pre-check sends none and leaves
    the whole world as it was. *)
Theorem hooks_only_read
    (ctx : Context) (event : Event) (filter : Filter) (mp : MethodParams)
    (w : World) :
  allowed_pubkeys (snd (RejectEvent ctx event w)) = allowed_pubkeys w
  /\ (trace (snd (RejectEvent ctx event w)) = trace w
      \/ trace (snd (RejectEvent ctx event w))
         = trace w ++ [SelectExists (PubKey event)])
  /\ allowed_pubkeys (snd (RejectFilter ctx filter w)) = allowed_pubkeys w
  /\ (trace (snd (RejectFilter ctx filter w)) = trace w
      \/ trace (snd (RejectFilter ctx filter w))
         = trace w ++ [SelectExists (GetAuthed ctx)])
  /\ snd (RejectAPICall ctx mp w) = w.
Proof.
  split; [apply RejectEvent_table|].
  split; [apply RejectEvent_trace|].
  split; [apply RejectFilter_table|].
  split; [apply RejectFilter_trace|].
  now rewrite RejectAPICall_eq.
Qed.

(** ** The store under the management operations *)

Lemma ownerPubKey_sent (s : Stmt) (t : list Row) (w : World) :
  ownerPubKey (sent s t w) = ownerPubKey w.
Proof. rewrite !ownerPubKey_eq. reflexivity. Qed.

Lemma RejectAPICall_owner (ctx : Context) (mp : MethodParams) (w : World) :
  GetAuthed ctx = ownerPubKey w ->
  RejectAPICall ctx mp w = ((false, ""), w).
Proof.
  intros H. rewrite RejectAPICall_eq, H, String.eqb_refl. reflexivity.
Qed.

Lemma table_without_absent (pk : string) (t : list Row) :
  Pg.has_key pk t = false -> table_without pk t = t.
Proof.
  unfold Pg.has_key, table_without. induction t as [|r t IH]; cbn; [reflexivity|].
  intros H. apply orb_false_iff in H. destruct H as [Hr Ht].
  rewrite Hr. cbn. now rewrite IH.
Qed.

Lemma has_key_table_with (pk rsn : string) (now : Z) (t : list Row) :
  Pg.has_key pk (table_with pk rsn now t) = true.
Proof.
  unfold table_with. destruct (Pg.has_key pk t) eqn:E; [exact E|].
  rewrite PgFacts.has_key_app. cbn. now rewrite String.eqb_refl, orb_true_r.
Qed.

Lemma has_key_other_table_with (pk pk' rsn : string) (now : Z) (t : list Row) :
  pk' <> pk ->
  Pg.has_key pk' (table_with pk rsn now t) = Pg.has_key pk' t.
Proof.
  intros Hneq. unfold table_with. destruct (Pg.has_key pk t); [reflexivity|].
  rewrite PgFacts.has_key_app. cbn.
  replace (String.eqb pk pk') with false; [now rewrite !orb_false_r|].
  symmetry. apply String.eqb_neq. congruence.
Qed.

Lemma insert_allowed_table (pk rsn : string) (now : Z) (t : list Row) :
  String.length pk <= 64 ->
  snd (Pg.insert_allowed pk rsn now t) = table_with pk rsn now t.
Proof.
  intros Hlen. unfold Pg.insert_allowed, table_with.
  rewrite (PgFacts.varchar_fits 64 pk Hlen).
  destruct (Pg.has_key pk t); reflexivity.
Qed.

(** X5: every management call, accepted or denied, succeeding or
    failing, keeps the primary key of the table unique. *)
Theorem management_call_keeps_primary_key
    (ctx : Context) (mp : MethodParams) (w : World) :
  Pg.pk_unique (allowed_pubkeys w) ->
  Pg.pk_unique (allowed_pubkeys (snd (management_call ctx mp w))).
Proof.
  intros Hu. unfold management_call, bind at 1. rewrite RejectAPICall_eq.
  destruct (String.eqb (GetAuthed ctx) (ownerPubKey w)); [|exact Hu].
  destruct mp as [pk rsn | pk rsn | | | m]; unfold bind.
  - pose proof (AddAllowedPubkey_unique w pk rsn Hu) as H. unfold AllowPubKey.
    destruct (AddAllowedPubkey pk rsn w) as [[e|] w']; exact H.
  - pose proof (RemoveAllowedPubkey_unique w pk Hu) as H. unfold BanPubKey.
    destruct (RemoveAllowedPubkey pk w) as [[e|] w']; exact H.
  - unfold ListAllowedPubKeys, bind.
    pose proof (GetAllowedPubkeys_table w) as H.
    destruct (GetAllowedPubkeys w) as [[l [e|]] w']; cbn in *; now rewrite H.
  - exact Hu.
  - exact Hu.
Qed.

Lemma management_call_keeps_primary_key_witness :
  let w := world0 [("RELAY_PUBKEY", "owner1")] [mkRow "alice" (Some "friend") 0] in
  Pg.pk_unique
    (allowed_pubkeys
       (snd (management_call (mkContext (AuthenticatedAs "owner1"))
                             (CallAllowPubKey "alice" "again") w))).
Proof.
  intros w. apply management_call_keeps_primary_key.
  repeat constructor. intros [].
Defined.

(** X6: once [AllowPubKey] has been called for a storable identity on a
    healthy database, [IsAllowedPubkey] answers true for it and the
    write policy accepts its events. *)
Theorem allow_then_write_accepted
    (ctx ctx' : Context) (event : Event) (rsn : string) (w : World) :
  storable (PubKey event) ->
  healthy 2 w ->
  fst ((AllowPubKey ctx (PubKey event) rsn ;;; IsAllowedPubkey (PubKey event)) w)
  = (true, None)
  /\ fst ((AllowPubKey ctx (PubKey event) rsn ;;; RejectEvent ctx' event) w)
     = (false, "").
Proof.
  intros Hst Hh. unfold AllowPubKey, bind.
  rewrite AddAllowedPubkey_healthy;
    [| exact Hst | apply (healthy_le 1 2); [lia | exact Hh]].
  rewrite RejectEvent_eq.
  rewrite IsAllowedPubkey_healthy; [| exact (proj1 Hst) | apply healthy_sent; exact Hh].
  cbn [fst snd sent allowed_pubkeys].
  rewrite has_key_table_with. split; reflexivity.
Qed.

Lemma allow_then_write_accepted_witness :
  let ctx := mkContext (AuthenticatedAs "owner1") in
  let event := mkEvent "" "alice" 0 1 [] "gm" "" in
  let w := world0 [("RELAY_PUBKEY", "owner1")] [] in
  fst ((AllowPubKey ctx "alice" "friend" ;;; RejectEvent (mkContext Unauthenticated) event) w)
  = (false, "").
Proof.
  intros ctx event w.
  apply (allow_then_write_accepted ctx (mkContext Unauthenticated) event "friend" w).
  - split; [discriminate | cbn; lia].
  - intros i Hi. reflexivity.
Defined.

(** X7: once [BanPubKey] has been called for a non-empty identity that
    is not the owner (healthy database), the write policy rejects its
    events with the private-relay message, whether or not the identity
    had been allowed. *)
Theorem ban_then_write_rejected
    (ctx ctx' : Context) (event : Event) (rsn : string) (w : World) :
  PubKey event <> "" ->
  PubKey event <> ownerPubKey w ->
  healthy 2 w ->
  fst ((BanPubKey ctx (PubKey event) rsn ;;; RejectEvent ctx' event) w)
  = (true, "this is a private relay, only authorized users can write here").
Proof.
  intros Hne Hno Hh. unfold BanPubKey, bind.
  rewrite RemoveAllowedPubkey_healthy;
    [| exact Hne | apply (healthy_le 1 2); [lia | exact Hh]].
  rewrite RejectEvent_eq.
  rewrite IsAllowedPubkey_healthy; [| exact Hne | apply healthy_sent; exact Hh].
  cbn [fst snd sent allowed_pubkeys]. unfold table_without.
  rewrite PgFacts.has_key_after_delete, ownerPubKey_sent.
  apply String.eqb_neq in Hno. rewrite Hno. reflexivity.
Qed.

Lemma ban_then_write_rejected_witness :
  let ctx := mkContext (AuthenticatedAs "owner1") in
  let event := mkEvent "" "alice" 0 1 [] "gm" "" in
  let w := world0 [("RELAY_PUBKEY", "owner1")] [mkRow "alice" (Some "friend") 0] in
  fst ((BanPubKey ctx "alice" "" ;;; RejectEvent (mkContext Unauthenticated) event) w)
  = (true, "this is a private relay, only authorized users can write here").
Proof.
  intros ctx event w.
  apply (ban_then_write_rejected ctx (mkContext Unauthenticated) event "" w).
  - discriminate.
  - vm_compute; discriminate.
  - intros i Hi. reflexivity.
Defined.

(** X8: adding or removing one identity never changes whether another
    identity is in the table, whatever the state of the database (for
    [add], of an identity that fits the column). *)
Theorem mutations_leave_other_identities (X Y rsn : string) (w : World) :
  String.length X <= 64 ->
  Y <> X ->
  Pg.has_key Y (allowed_pubkeys (snd (AddAllowedPubkey X rsn w)))
  = Pg.has_key Y (allowed_pubkeys w)
  /\ Pg.has_key Y (allowed_pubkeys (snd (RemoveAllowedPubkey X w)))
     = Pg.has_key Y (allowed_pubkeys w).
Proof.
  intros Hlen Hneq. split.
  - unfold AddAllowedPubkey. destruct (String.eqb X ""); [reflexivity|].
    unfold bind, db_Exec, bind.
    pose proof (round_trip_table w (InsertAllowed X rsn) (Pg.insert_allowed X rsn)) as Ht.
    rewrite (insert_allowed_table X rsn _ _ Hlen) in Ht.
    assert (Hk : Pg.has_key Y
                   (allowed_pubkeys
                      (snd (round_trip (InsertAllowed X rsn) (Pg.insert_allowed X rsn) w)))
                 = Pg.has_key Y (allowed_pubkeys w)).
    { destruct Ht as [Ht|Ht]; rewrite Ht; [reflexivity|].
      apply has_key_other_table_with. exact Hneq. }
    destruct (round_trip _ _ w) as [[n|err] w']; exact Hk.
  - unfold RemoveAllowedPubkey. destruct (String.eqb X ""); [reflexivity|].
    unfold bind, db_Exec, bind.
    pose proof (round_trip_table w (DeleteAllowed X) (Pg.delete_allowed X)) as Ht.
    assert (Hk : Pg.has_key Y
                   (allowed_pubkeys
                      (snd (round_trip (DeleteAllowed X) (Pg.delete_allowed X) w)))
                 = Pg.has_key Y (allowed_pubkeys w)).
    { destruct Ht as [Ht|Ht]; rewrite Ht; [reflexivity|].
      apply PgFacts.has_key_other_after_delete. exact Hneq. }
    destruct (round_trip _ _ w) as [[n|err] w']; cbn in *.
    + destruct (n =? 0)%Z; exact Hk.
    + exact Hk.
Qed.

Lemma mutations_leave_other_identities_witness :
  let w := world0 [] [mkRow "alice" (Some "friend") 0; mkRow "bob" None 1] in
  Pg.has_key "alice" (allowed_pubkeys (snd (RemoveAllowedPubkey "bob" w))) = true.
Proof.
  intros w.
  assert (Hlen : String.length "bob" <= 64) by (cbn; lia).
  assert (Hneq : "alice" <> "bob") by discriminate.
  rewrite (proj2 (mutations_leave_other_identities "bob" "alice" "" w Hlen Hneq)).
  reflexivity.
Defined.

(** X9: on a healthy database, adding a storable identity that has no
    row and then removing it succeeds twice and gives back the table
    exactly as it was. *)
Theorem add_then_remove_restores (X rsn : string) (w : World) :
  storable X ->
  healthy 2 w ->
  ~ In X (map pubkey (allowed_pubkeys w)) ->
  fst (AddAllowedPubkey X rsn w) = None
  /\ fst ((AddAllowedPubkey X rsn ;;; RemoveAllowedPubkey X) w) = None
  /\ allowed_pubkeys (snd ((AddAllowedPubkey X rsn ;;; RemoveAllowedPubkey X) w))
     = allowed_pubkeys w.
Proof.
  intros Hst Hh Habsent. unfold bind.
  rewrite AddAllowedPubkey_healthy;
    [| exact Hst | apply (healthy_le 1 2); [lia | exact Hh]].
  rewrite RemoveAllowedPubkey_healthy;
    [| exact (proj1 Hst) | apply healthy_sent; exact Hh].
  cbn [fst snd sent allowed_pubkeys].
  rewrite has_key_table_with.
  split; [reflexivity|]. split; [reflexivity|].
  apply PgFacts.has_key_false in Habsent.
  unfold table_with. rewrite Habsent.
  unfold table_without. rewrite filter_app. cbn.
  rewrite String.eqb_refl. cbn. rewrite app_nil_r.
  now apply table_without_absent.
Qed.

Lemma add_then_remove_restores_witness :
  let w := world0 [] [mkRow "alice" (Some "friend") 0] in
  allowed_pubkeys (snd ((AddAllowedPubkey "bob" "" ;;; RemoveAllowedPubkey "bob") w))
  = allowed_pubkeys w.
Proof.
  intros w. apply (add_then_remove_restores "bob" "" w).
  - split; [discriminate | cbn; lia].
  - intros i Hi. reflexivity.
  - intros [H | []]. discriminate H.
Defined.

(** X10: [remove] is not idempotent.  On a healthy database a second
    [remove] of the same non-empty identity returns the not-found
    error, whatever the first one returned. *)
Theorem remove_twice_not_found (X : string) (w : World) :
  X <> "" ->
  healthy 2 w ->
  fst ((RemoveAllowedPubkey X ;;; RemoveAllowedPubkey X) w)
  = Some (not_found_error X).
Proof.
  intros Hne Hh. unfold bind.
  rewrite RemoveAllowedPubkey_healthy;
    [| exact Hne | apply (healthy_le 1 2); [lia | exact Hh]].
  rewrite RemoveAllowedPubkey_healthy; [| exact Hne | apply healthy_sent; exact Hh].
  cbn [fst snd sent allowed_pubkeys]. unfold table_without at 1.
  now rewrite PgFacts.has_key_after_delete.
Qed.

Lemma remove_twice_not_found_witness :
  let w := world0 [] [mkRow "alice" (Some "friend") 0] in
  fst ((RemoveAllowedPubkey "alice" ;;; RemoveAllowedPubkey "alice") w)
  = Some (not_found_error "alice").
Proof.
  intros w. apply (remove_twice_not_found "alice" w).
  - discriminate.
  - intros i Hi. reflexivity.
Defined.

(** X11: adding an identity that already has a row, with any reason,
    succeeds and changes nothing: the row keeps the reason and the
    creation time it was first stored with. *)
Theorem add_existing_keeps_row (X rsn : string) (w : World) :
  storable X ->
  healthy 1 w ->
  In X (map pubkey (allowed_pubkeys w)) ->
  fst (AddAllowedPubkey X rsn w) = None
  /\ allowed_pubkeys (snd (AddAllowedPubkey X rsn w)) = allowed_pubkeys w.
Proof.
  intros Hst Hh Hin.
  rewrite (AddAllowedPubkey_healthy w X rsn Hst Hh).
  cbn [fst snd sent allowed_pubkeys]. split; [reflexivity|].
  apply PgFacts.has_key_true in Hin. unfold table_with. now rewrite Hin.
Qed.

Lemma add_existing_keeps_row_witness :
  let w := world0 [] [mkRow "alice" (Some "friend") 0] in
  fst (AddAllowedPubkey "alice" "colleague" w) = None
  /\ allowed_pubkeys (snd (AddAllowedPubkey "alice" "colleague" w))
     = [mkRow "alice" (Some "friend") 0].
Proof.
  intros w. apply (add_existing_keeps_row "alice" "colleague" w).
  - split; [discriminate | cbn; lia].
  - intros i Hi. reflexivity.
  - left. reflexivity.
Defined.

(** X12: when the round trip of [add] or [remove] for a non-empty
    identity fails, the method returns an error whose message names
    the operation and the identity and ends with the driver's text, and
    which wraps the driver's error; [remove] reports this error, not
    not-found, whether or not the identity has a row. *)
Theorem mutations_report_driver_error (pk rsn text : string) (w : World) :
  pk <> "" ->
  faults w (List.length (trace w)) = Some text ->
  (exists e,
      fst (AddAllowedPubkey pk rsn w) = Some e
      /\ Unwrap e = Some (driver_error text)
      /\ Error e = ("failed to add allowed pubkey " ++ pk ++ ": " ++ text)%string)
  /\ (exists e,
         fst (RemoveAllowedPubkey pk w) = Some e
         /\ Unwrap e = Some (driver_error text)
         /\ Error e = ("failed to remove allowed pubkey " ++ pk ++ ": " ++ text)%string
         /\ e <> not_found_error pk).
Proof.
  intros Hne Hf.
  rewrite (AddAllowedPubkey_fault w pk rsn text Hne Hf).
  rewrite (RemoveAllowedPubkey_fault w pk text Hne Hf).
  cbn [fst]. split.
  - eexists. split; [reflexivity|]. split; reflexivity.
  - eexists. split; [reflexivity|]. split; [reflexivity|].
    split; [reflexivity | discriminate].
Qed.

Lemma mutations_report_driver_error_witness :
  let w := mkWorld [] [mkRow "alice" (Some "friend") 0]
                   (fun n => Z.of_nat n) (fun _ => Some "EOF") [] [] in
  exists e,
    fst (RemoveAllowedPubkey "bob" w) = Some e
    /\ Unwrap e = Some (driver_error "EOF")
    /\ Error e = "failed to remove allowed pubkey bob: EOF"
    /\ e <> not_found_error "bob".
Proof.
  intros w.
  assert (Hne : "bob" <> "") by discriminate.
  exact (proj2 (mutations_report_driver_error "bob" "" "EOF" w Hne eq_refl)).
Defined.

(** X13: an identity of more than 64 characters (and not merely
    padded with spaces beyond the 64th) does not fit the [pubkey]
    column: on a healthy database [add] returns an error wrapping the
    server's, and the table is as before. *)
Theorem overlong_pubkey_not_added (pk rsn : string) (w : World) :
  64 < Pg.char_length pk ->
  Pg.all_spaces (Pg.drop_chars 64 pk) = false ->
  healthy 1 w ->
  (exists e, fst (AddAllowedPubkey pk rsn w) = Some e
             /\ exists cause, Unwrap e = Some (driver_error cause))
  /\ allowed_pubkeys (snd (AddAllowedPubkey pk rsn w)) = allowed_pubkeys w.
Proof.
  intros Hlen Hsp Hh. apply healthy_now in Hh.
  assert (Hne : pk <> "") by (intros ->; cbn in Hlen; lia).
  assert (Hv : Pg.varchar 64 pk = None).
  { unfold Pg.varchar. apply Nat.leb_gt in Hlen. now rewrite Hlen, Hsp. }
  unfold AddAllowedPubkey, bind, db_Exec, round_trip, bind.
  rewrite (eqb_empty_false pk Hne), Hh.
  unfold Pg.insert_allowed. rewrite Hv. cbn.
  split; [|reflexivity].
  eexists. split; [reflexivity|]. eexists. reflexivity.
Qed.

Lemma overlong_pubkey_not_added_witness :
  let pk := "82c1b69ddb84fb9a8cc68616118a9a1c794dfeb29c8d2ea2cec59af21f9df8040" in
  let w := world0 [] [] in
  allowed_pubkeys (snd (AddAllowedPubkey pk "" w)) = allowed_pubkeys w.
Proof.
  intros pk w. apply (overlong_pubkey_not_added pk "" w).
  - vm_compute. lia.
  - reflexivity.
  - intros i Hi. reflexivity.
Defined.

(** ** Listing *)

Module OrderFacts.
Import Pg.

Lemma insert_at_end (r : Row) (l : list Row) :
  Forall (fun a => created_le a r) l ->
  insert_by_created_at r l = l ++ [r].
Proof.
  induction 1 as [|a l Ha _ IH]; cbn; [reflexivity|].
  unfold created_le in Ha.
  replace (created_at r <? created_at a)%Z with false
    by (symmetry; apply Z.ltb_ge; exact Ha).
  now rewrite IH.
Qed.

Lemma sorted_prefix_below (acc : list Row) (r : Row) (rest : list Row) :
  StronglySorted created_le (acc ++ r :: rest) ->
  Forall (fun a => created_le a r) acc.
Proof.
  induction acc as [|a acc IH]; cbn; intros Hs; [constructor|].
  inversion Hs as [|? ? Hs' Hall]; subst.
  constructor; [|now apply IH].
  rewrite Forall_forall in Hall. apply Hall. apply in_elt.
Qed.

Lemma fold_insert_sorted_id (t acc : list Row) :
  StronglySorted created_le (acc ++ t) ->
  fold_left (fun sorted r => insert_by_created_at r sorted) t acc = acc ++ t.
Proof.
  revert acc. induction t as [|r t IH]; intros acc Hs; cbn.
  - now rewrite app_nil_r.
  - rewrite (insert_at_end r acc (sorted_prefix_below acc r t Hs)).
    rewrite IH; rewrite <- app_assoc; [reflexivity | exact Hs].
Qed.

(** ORDER BY created_at returns a table whose heap order is already
    ascending as it is. *)
Lemma order_by_created_at_sorted_id (t : list Row) :
  StronglySorted created_le t -> order_by_created_at t = t.
Proof. intros Hs. exact (fold_insert_sorted_id t [] Hs). Qed.

Lemma stamped_after (clk : nat -> Z) (entries : list (string * string)) :
  (forall i j, i < j -> (clk i < clk j)%Z) ->
  forall n m, n < m ->
  Forall (fun r => (clk n <= created_at r)%Z) (stamped clk m entries).
Proof.
  intros Hclk. induction entries as [|[pk rsn] rest IH]; intros n m Hnm; cbn.
  - constructor.
  - constructor; [cbn; specialize (Hclk n m Hnm); lia|].
    apply IH. lia.
Qed.

Lemma stamped_sorted (clk : nat -> Z) (entries : list (string * string)) :
  (forall i j, i < j -> (clk i < clk j)%Z) ->
  forall n, StronglySorted created_le (stamped clk n entries).
Proof.
  intros Hclk. induction entries as [|[pk rsn] rest IH]; intros n; cbn.
  - constructor.
  - constructor; [apply IH|].
    apply (stamped_after clk rest Hclk n (S n)). lia.
Qed.

Lemma stamped_pubkeys (clk : nat -> Z) (entries : list (string * string)) :
  forall n, map pubkey (stamped clk n entries) = map fst entries.
Proof.
  induction entries as [|[pk rsn] rest IH]; intros n; cbn; [reflexivity|].
  now rewrite IH.
Qed.

End OrderFacts.

Lemma allow_all_fresh (ctx : Context) (entries : list (string * string)) :
  forall w : World,
  Forall storable (map fst entries) ->
  NoDup (map fst entries) ->
  (forall pk, In pk (map fst entries) ->
              Pg.has_key pk (allowed_pubkeys w) = false) ->
  healthy (List.length entries) w ->
  allow_all ctx entries w
  = (map (fun _ => None) entries,
     mkWorld (environ w)
             (allowed_pubkeys w ++ stamped (clock w) (List.length (trace w)) entries)
             (clock w) (faults w)
             (trace w ++ map (fun e => InsertAllowed (fst e) (snd e)) entries)
             (log w)).
Proof.
  induction entries as [|[pk rsn] rest IH]; intros w Hst Hnd Hfresh Hh.
  - destruct w. cbn. now rewrite !app_nil_r.
  - cbn [allow_all]. unfold bind at 1. unfold AllowPubKey.
    cbn [map fst] in Hst, Hnd, Hfresh.
    inversion Hst as [|? ? Hpk Hst']; subst.
    inversion Hnd as [|? ? Hnotin Hnd']; subst.
    rewrite AddAllowedPubkey_healthy;
      [| exact Hpk | apply (healthy_le 1 (S (List.length rest))); [lia | exact Hh]].
    unfold table_with. rewrite (Hfresh pk (or_introl eq_refl)).
    unfold bind.
    rewrite IH; [ | exact Hst' | exact Hnd' | | apply healthy_sent; exact Hh].
    + cbn [sent environ allowed_pubkeys clock faults trace log map fst snd stamped].
      rewrite last_length, <- !app_assoc. reflexivity.
    + intros pk' Hin. cbn [sent allowed_pubkeys].
      rewrite PgFacts.has_key_app, (Hfresh pk' (or_intror Hin)). cbn.
      rewrite orb_false_r. apply String.eqb_neq. intros ->. contradiction.
Qed.

(** X14: a run of [AllowPubKey] calls for distinct storable identities
    on an empty table, with a healthy database whose clock advances
    from statement to statement, all succeed, and [list] then returns
    the identities in the order of the calls. *)
Theorem allow_all_listed_in_order
    (ctx : Context) (entries : list (string * string)) (w : World) :
  allowed_pubkeys w = [] ->
  Forall storable (map fst entries) ->
  NoDup (map fst entries) ->
  healthy (S (List.length entries)) w ->
  (forall i j, i < j -> (clock w i < clock w j)%Z) ->
  fst (allow_all ctx entries w) = map (fun _ => None) entries
  /\ fst ((allow_all ctx entries ;;; GetAllowedPubkeys) w)
     = (map fst entries, None).
Proof.
  intros Hempty Hst Hnd Hh Hclk.
  assert (Hrun := allow_all_fresh ctx entries w Hst Hnd).
  rewrite Hempty in Hrun. specialize (Hrun (fun _ _ => eq_refl)).
  specialize (Hrun (healthy_le _ _ w (Nat.le_succ_diag_r _) Hh)).
  unfold bind. rewrite Hrun. split; [reflexivity|].
  rewrite GetAllowedPubkeys_healthy.
  - cbn [fst allowed_pubkeys app].
    rewrite OrderFacts.order_by_created_at_sorted_id
      by (apply OrderFacts.stamped_sorted; exact Hclk).
    now rewrite OrderFacts.stamped_pubkeys.
  - intros i Hi. replace i with 0 by lia. cbn [faults trace].
    rewrite length_app, length_map, Nat.add_0_r.
    apply Hh. lia.
Qed.

Lemma allow_all_listed_in_order_witness :
  let ctx := mkContext (AuthenticatedAs "owner1") in
  let entries := [("carol", ""); ("alice", "friend"); ("bob", "")] in
  fst ((allow_all ctx entries ;;; GetAllowedPubkeys) (world0 [] []))
  = (["carol"; "alice"; "bob"], None).
Proof.
  intros ctx entries.
  apply (allow_all_listed_in_order ctx entries (world0 [] [])).
  - reflexivity.
  - repeat constructor; try discriminate; cbn; lia.
  - repeat constructor; cbn; intuition discriminate.
  - intros i Hi. reflexivity.
  - intros i j Hij. cbn. lia.
Defined.

Lemma GetAllowedPubkeys_fault (w : World) (text : string) :
  faults w (List.length (trace w)) = Some text ->
  GetAllowedPubkeys w =
  (([], Some (Errorf_w ("failed to query allowed pubkeys: " ++ text)
                       (driver_error text))),
   sent SelectPubkeys (allowed_pubkeys w) w).
Proof.
  intros Hf. unfold GetAllowedPubkeys, bind, db_Query, round_trip, bind.
  rewrite Hf. reflexivity.
Qed.

(** X15: [contains] and [list] agree.  On a healthy database
    [IsAllowedPubkey] answers true for a non-empty identity exactly
    when [GetAllowedPubkeys] lists it. *)
Theorem contains_iff_listed (X : string) (w : World) :
  X <> "" ->
  healthy 1 w ->
  (fst (IsAllowedPubkey X w) = (true, None)
   <-> In X (fst (fst (GetAllowedPubkeys w)))).
Proof.
  intros Hne Hh.
  rewrite (IsAllowedPubkey_healthy w X Hne Hh), (GetAllowedPubkeys_healthy w Hh).
  cbn [fst].
  assert (Hperm : Permutation (map pubkey (allowed_pubkeys w))
                    (map pubkey (Pg.order_by_created_at (allowed_pubkeys w)))).
  { apply Permutation_map. apply PgFacts.order_by_created_at_perm. }
  split.
  - intros H. injection H as H. apply PgFacts.has_key_true in H.
    now apply (Permutation_in _ Hperm).
  - intros H. apply (Permutation_in _ (Permutation_sym Hperm)) in H.
    apply PgFacts.has_key_true in H. now rewrite H.
Qed.

Lemma contains_iff_listed_witness :
  let w := world0 [] [mkRow "bob" None 5; mkRow "alice" (Some "friend") 2] in
  In "bob" (fst (fst (GetAllowedPubkeys w))).
Proof.
  intros w.
  assert (Hne : "bob" <> "") by discriminate.
  assert (Hh : healthy 1 w) by (intros i Hi; reflexivity).
  apply (proj1 (contains_iff_listed "bob" w Hne Hh)). reflexivity.
Defined.

(** X16: the management listing is the store's listing.  Whatever the
    state of the database, [ListAllowedPubKeys] returns one entry per
    identity that [GetAllowedPubkeys] returns, in the same order, and
    when the store's listing fails it returns the store's error as it
    is, with no entries. *)
Theorem listing_matches_store (ctx : Context) (w : World) :
  map PKR_PubKey (fst (fst (ListAllowedPubKeys ctx w)))
  = fst (fst (GetAllowedPubkeys w))
  /\ snd (fst (ListAllowedPubKeys ctx w)) = snd (fst (GetAllowedPubkeys w))
  /\ (snd (fst (GetAllowedPubkeys w)) <> None
      -> fst (fst (ListAllowedPubKeys ctx w)) = [])
  /\ snd (ListAllowedPubKeys ctx w) = snd (GetAllowedPubkeys w).
Proof.
  unfold ListAllowedPubKeys, bind.
  destruct (faults w (List.length (trace w))) as [text|] eqn:Ef.
  - rewrite (GetAllowedPubkeys_fault w text Ef). cbn. repeat split.
  - rewrite (GetAllowedPubkeys_healthy w (healthy_one w Ef)).
    unfold ret. cbn [fst snd]. rewrite range_pubkeys_app. cbn [app].
    split; [|split; [reflexivity | split; [intros H; now elim H | reflexivity]]].
    rewrite !map_map. reflexivity.
Qed.

Lemma listing_matches_store_witness :
  let ctx := mkContext (AuthenticatedAs "owner1") in
  let w := mkWorld [("RELAY_PUBKEY", "owner1")] [mkRow "alice" (Some "friend") 0]
                   (fun n => Z.of_nat n) (fun _ => Some "EOF") [] [] in
  fst (fst (ListAllowedPubKeys ctx w)) = [].
Proof.
  intros ctx w.
  apply (proj1 (proj2 (proj2 (listing_matches_store ctx w)))).
  discriminate.
Defined.

(** X17: for the owner the management pre-check accepts, and when the
    [AllowPubKey] operation then runs for a storable identity on a
    healthy database it succeeds, the pre-check still accepts the owner,
    and the [ListAllowedPubKeys] operation returns, without error, a
    listing that contains the identity. *)
Theorem owner_allow_then_listed
    (ctx : Context) (pk rsn : string) (w : World) :
  GetAuthed ctx = ownerPubKey w ->
  storable pk ->
  healthy 2 w ->
  RejectAPICall ctx (CallAllowPubKey pk rsn) w = ((false, ""), w)
  /\ fst (AllowPubKey ctx pk rsn w) = None
  /\ fst (RejectAPICall ctx CallListAllowedPubKeys (snd (AllowPubKey ctx pk rsn w)))
     = (false, "")
  /\ exists entries,
       fst (ListAllowedPubKeys ctx (snd (AllowPubKey ctx pk rsn w)))
       = (entries, None)
       /\ In pk (map PKR_PubKey entries).
Proof.
  intros Howner Hst Hh.
  split; [apply RejectAPICall_owner; exact Howner|].
  unfold AllowPubKey.
  rewrite AddAllowedPubkey_healthy;
    [| exact Hst | apply (healthy_le 1 2); [lia | exact Hh]].
  cbn [fst snd]. split; [reflexivity|].
  set (w1 := sent _ _ w).
  assert (Hh1 : healthy 1 w1) by (apply healthy_sent; exact Hh).
  split.
  { rewrite RejectAPICall_owner; [reflexivity|].
    unfold w1. rewrite ownerPubKey_sent. exact Howner. }
  rewrite (ListAllowedPubKeys_healthy ctx w1 Hh1). cbn [fst].
  eexists. split; [reflexivity|].
  rewrite !map_map. cbn [PKR_PubKey].
  change (In pk (map pubkey (Pg.order_by_created_at (allowed_pubkeys w1)))).
  apply (Permutation_in pk
           (Permutation_map pubkey
              (PgFacts.order_by_created_at_perm (allowed_pubkeys w1)))).
  apply PgFacts.has_key_true. unfold w1. cbn [sent allowed_pubkeys].
  apply has_key_table_with.
Qed.

Lemma owner_allow_then_listed_witness :
  let owner := "82c1b69ddb84fb9a8cc68616118a9a1c794dfeb29c8d2ea2cec59af21f9df804" in
  let pk := "3bf0c63fcb93463407af97a5e5ee64fa883d107ef9e558472c4eb9aaaefa459d" in
  let ctx := mkContext (AuthenticatedAs owner) in
  let w := world0 [("RELAY_PUBKEY", owner)] [] in
  fst (AllowPubKey ctx pk "friend" w) = None
  /\ exists entries,
       fst (ListAllowedPubKeys ctx (snd (AllowPubKey ctx pk "friend" w)))
       = (entries, None)
       /\ In pk (map PKR_PubKey entries).
Proof.
  intros owner pk ctx w.
  assert (Hst : storable pk) by (split; [discriminate | vm_compute; lia]).
  assert (Hh : healthy 2 w) by (intros i Hi; reflexivity).
  destruct (owner_allow_then_listed ctx pk "friend" w eq_refl Hst Hh)
    as (_ & Hadd & _ & Hlist).
  split; [exact Hadd | exact Hlist].
Defined.

(** ** The advertised key and the owner *)

Lemma main_Info_PubKey (w : World) :
  InfoPubKey (fst (main_Info w))
  = match lookup_env "RELAY_PUBKEY" (environ w) with
    | Some value => value
    | None => "82c1b69ddb84fb9a8cc68616118a9a1c794dfeb29c8d2ea2cec59af21f9df804"
    end
  /\ snd (main_Info w) = w.
Proof.
  unfold main_Info, bind.
  repeat (rewrite getEnv_eq; cbv beta iota).
  split; reflexivity.
Qed.

(** X18: the key that [main] advertises in the relay information is the
    owner identity the hooks compare with exactly when RELAY_PUBKEY is
    set.  When it is unset the relay advertises the built-in default
    key while the hooks use the empty string, so a caller authenticated
    as the advertised key is denied every management call. *)
Theorem advertised_key_and_owner
    (ctx : Context) (mp : MethodParams) (w : World) :
  (InfoPubKey (fst (main_Info w)) = ownerPubKey w
   <-> lookup_env "RELAY_PUBKEY" (environ w) <> None)
  /\ (lookup_env "RELAY_PUBKEY" (environ w) = None ->
      GetAuthed ctx = InfoPubKey (fst (main_Info w)) ->
      RejectAPICall ctx mp w = ((true, "go away, intruder"), w)).
Proof.
  destruct (main_Info_PubKey w) as [Hinfo _].
  rewrite Hinfo, ownerPubKey_eq.
  destruct (lookup_env "RELAY_PUBKEY" (environ w)) as [v|] eqn:E.
  - split; [|discriminate]. split; [discriminate | reflexivity].
  - split.
    + split; [discriminate | intros H; now elim H].
    + intros _ Hauth. rewrite RejectAPICall_eq, ownerPubKey_eq, E, Hauth.
      reflexivity.
Qed.

Lemma advertised_key_and_owner_witness :
  let ctx := mkContext (AuthenticatedAs
               "82c1b69ddb84fb9a8cc68616118a9a1c794dfeb29c8d2ea2cec59af21f9df804") in
  let w := world0 [("RELAY_NAME", "brove relay")] [] in
  RejectAPICall ctx CallListAllowedPubKeys w = ((true, "go away, intruder"), w).
Proof.
  intros ctx w.
  apply (proj2 (advertised_key_and_owner ctx CallListAllowedPubKeys w));
    reflexivity.
Defined.
